(** * imageprocessing: harvesting image URLs, downloading, grayscale conversion

    A shallow embedding of the three variants of [imageprocessing.cpp]:
    the single-pass variant (hard-coded count, [downloadImage] returns
    [bool]) and the two looping variants (count from [argv], retry loop in
    [generateImageUrls], [downloadImage] calls [exit(1)]).

    The program is a sequence of library calls (libcurl, libc, nlohmann::json,
    OpenCV).  The libraries and the outside world are a record of oracles,
    [World]; every call to an oracle reads a logical clock and advances it, so
    that the same probe may answer differently at different moments.  The
    program itself is written in a small monad carrying the state (clock and
    file system), the emitted events and the three ways a computation ends. *)

From Stdlib Require Import ZArith Lia List Bool Ascii String DecimalString.
From Stdlib Require DecimalPos DecimalZ.
From stdpp Require Import base option list gmap strings.

#[local] Set Warnings "-register-all".
Local Open Scope string_scope.
Local Open Scope list_scope.
Local Open Scope Z_scope.

(** ** Strings as the code uses them *)

Module Str.

(** [std::string::compare(0, p.size(), p) == 0]: [p] is at the start of [s]. *)
Fixpoint starts_with (p s : string) : bool :=
  match p, s with
  | EmptyString, _ => true
  | String a p', String b s' => if Ascii.eqb a b then starts_with p' s' else false
  | String _ _, EmptyString => false
  end.

(** [s.find(p)] searching from offset [pos] of the original string; [None]
    is [std::string::npos]. *)
Fixpoint find_from (p s : string) (pos : nat) : option nat :=
  if starts_with p s then Some pos
  else match s with
       | EmptyString => None
       | String _ s' => find_from p s' (S pos)
       end.

Definition find (s p : string) : option nat := find_from p s 0.

(** [std::getline(is, line)] on the unread part [s] of a stream.  [None]: no
    character could be extracted (the stream sets failbit, the loop ends).
    Otherwise the line, without its delimiter, and what is left unread. *)
Fixpoint read_line (s : string) : string * string :=
  match s with
  | EmptyString => (EmptyString, EmptyString)
  | String c s' =>
      if Ascii.eqb c "010"%char then (EmptyString, s')
      else let '(l, rest) := read_line s' in (String c l, rest)
  end.

Definition getline (s : string) : option (string * string) :=
  match s with
  | EmptyString => None
  | _ => Some (read_line s)
  end.

(** The lines [std::getline] hands out, one after the other, until it
    fails: the stream cut at every newline, without an empty last line. *)
Fixpoint lines (s : string) : list string :=
  match s with
  | EmptyString => []
  | String c s' =>
      if Ascii.eqb c "010"%char then EmptyString :: lines s'
      else match lines s' with
           | [] => [String c EmptyString]
           | l :: ls => String c l :: ls
           end
  end.

(** [p] occurs in [s]. *)
Definition substring_of (p s : string) : Prop :=
  exists pre post, s = pre +:+ p +:+ post.

(** [operator<<] of an [int], [std::to_string] of a [size_t]. *)
Definition of_Z (z : Z) : string := NilZero.string_of_int (Z.to_int z).

End Str.

(** ** Machine integers *)

(** [(size_t)n] for an [int n] on an LP64 target: sign extension, then the
    value modulo [2^64]. *)
Definition size_t_of_int (n : Z) : Z := n mod 2 ^ 64.

Definition INT_MIN : Z := - 2 ^ 31.
Definition INT_MAX : Z := 2 ^ 31 - 1.
Definition LONG_MIN : Z := - 2 ^ 63.
Definition LONG_MAX : Z := 2 ^ 63 - 1.

Definition int_range (n : Z) : Prop := INT_MIN <= n <= INT_MAX.

(** [(int)x] for a [long x]. *)
Definition int_of_long (x : Z) : Z := (x + 2 ^ 31) mod 2 ^ 32 - 2 ^ 31.

(** [v.size()] of a [std::vector]. *)
Definition size {A} (v : list A) : Z := Z.of_nat (List.length v).

(** ** Values of the libraries *)

(** nlohmann::json values. *)
Inductive json : Type :=
| JNull
| JBool (b : bool)
| JNum (n : Z)
| JStr (s : string)
| JArr (items : list json)
| JObj (members : list (string * json)).

(** An 8-bit pixel of a 3-channel matrix, in OpenCV's B, G, R order. *)
Record Vec3b : Type := BGR { blue : Z; green : Z; red : Z }.

(** [cv::Mat] of type [CV_8UC3] and of type [CV_8UC1], as rows of pixels. *)
Definition Mat3 : Type := list (list Vec3b).
Definition Mat1 : Type := list (list Z).

Definition CURLE_OK : Z := 0.

(** ** What the program does to the outside *)

(** The URL of a request is recorded as the [std::string] the program
    builds.  libcurl is handed its [c_str()] and reads it up to the first
    NUL byte: a URL with a NUL byte inside reaches the network cut there
    (see [c_str]). *)
Inductive event : Type :=
| EvPost (url : string) (body : json) (res : Z)
| EvHead (url : string) (res : Z) (code : Z)
| EvGet (url file : string) (res : Z)
| EvMkdir (dir : string)
| EvImread (file : string)
| EvImwrite (file : string) (gray : Mat1)
| EvStdout (msg : string)
| EvStderr (msg : string).

Definition is_network (e : event) : bool :=
  match e with
  | EvPost _ _ _ | EvHead _ _ _ | EvGet _ _ _ => true
  | _ => false
  end.

Definition is_log (e : event) : bool :=
  match e with
  | EvStdout _ | EvStderr _ => true
  | _ => false
  end.

(** ** The libraries and the environment *)

(** Coefficients of OpenCV's fixed-point 8-bit [COLOR_BGR2GRAY]. *)
Record GrayCoeffs : Type := mkGrayCoeffs {
  B2Y : Z; G2Y : Z; R2Y : Z; gray_shift : Z
}.

(** The libraries, as functions of the point of the run at which they are
    called.  Every call returns here.  The code sets a timeout on the probe
    only ([CURLOPT_TIMEOUT] of 5 seconds in [isAccessible]); a POST or a
    download that never ends has no counterpart in a [World], so what is
    proved of a run is proved of the runs in which each transfer ends. *)
Record World : Type := mkWorld {
  (* libcurl *)
  curl_easy_init : nat -> bool;
  perform_post : nat -> string -> json -> Z * string;
  perform_head : nat -> string -> Z * Z;
  perform_get : nat -> string -> Z * string;
  curl_easy_strerror : Z -> string;
  (* libc *)
  stat_fails : nat -> string -> bool;
  fopen_wb : nat -> string -> bool;
  (* nlohmann::json *)
  json_parse : string -> string + json;
  json_type_error : Z -> string;
  (* OpenCV *)
  imdecode : string -> Mat3;
  imencode : nat -> string -> Mat1 -> option string;
  gray_coeffs : GrayCoeffs
}.

(** ** State and the monad of the program *)

Record State : Type := mkState {
  clock : nat;
  fs : gmap string string
}.

Inductive Res (A : Type) : Type :=
| Done (a : A) (s : State)
| Exited (status : Z) (s : State)
| Diverged.
Arguments Done {A} a s.
Arguments Exited {A} status s.
Arguments Diverged {A}.

Definition M (A : Type) : Type := State -> list event * Res A.

Definition ret {A} (a : A) : M A := fun s => ([], Done a s).

Definition bind {A B} (m : M A) (k : A -> M B) : M B :=
  fun s =>
    match m s with
    | (e1, Done a s1) => let '(e2, r) := k a s1 in (e1 ++ e2, r)
    | (e1, Exited c s1) => (e1, Exited c s1)
    | (e1, Diverged) => (e1, Diverged)
    end.

Declare Scope prog_scope.
Delimit Scope prog_scope with prog.
Notation "x <- m ;; k" := (bind m (fun x => k))
  (at level 100, m at next level, right associativity) : prog_scope.
Notation "m ;;; k" := (bind m (fun _ => k))
  (at level 100, right associativity) : prog_scope.
Local Open Scope prog_scope.

(** Read the clock and advance it: one call into a library. *)
Definition tick : M nat :=
  fun s => ([], Done (clock s) (mkState (S (clock s)) (fs s))).

Definition emit (e : event) : M unit := fun s => ([e], Done tt s).

(** [exit(status)]. *)
Definition exit {A} (status : Z) : M A := fun s => ([], Exited status s).

Definition read_file (path : string) : M (option string) :=
  fun s => ([], Done (fs s !! path) s).

Definition write_file (path data : string) : M unit :=
  fun s => ([], Done tt (mkState (clock s) (<[path := data]> (fs s)))).

Definition cout (msg : string) : M unit := emit (EvStdout msg).
Definition cerr (msg : string) : M unit := emit (EvStderr msg).

(** The events and the outcome of a run. *)
Definition events {A} (r : list event * Res A) : list event := fst r.
Definition outcome {A} (r : list event * Res A) : Res A := snd r.

Definition diverge {A} : M A := fun s => ([], Diverged).

(** The exit status of the process, when [main] ends. *)
Definition exit_status (r : Res Z) : option Z :=
  match r with
  | Done status _ => Some status
  | Exited status _ => Some status
  | Diverged => None
  end.

(** ** nlohmann::json accessors

    A thrown [json::type_error] is [inl id]; every one of them derives from
    [std::exception]. *)

Module Json.

Fixpoint lookup (key : string) (ms : list (string * json)) : option json :=
  match ms with
  | [] => None
  | (k, v) :: ms' => if String.eqb k key then Some v else lookup key ms'
  end.

(** [j.contains(key)] *)
Definition contains (j : json) (key : string) : bool :=
  match j with
  | JObj ms => match lookup key ms with Some _ => true | None => false end
  | _ => false
  end.

(** [j.empty()] *)
Definition empty (j : json) : bool :=
  match j with
  | JNull => true
  | JArr [] => true
  | JObj [] => true
  | _ => false
  end.

(** [j[key]] on a non-const value: [null] turns into an object, a missing
    member is inserted as [null]. *)
Definition at_key (j : json) (key : string) : Z + json :=
  match j with
  | JNull => inr JNull
  | JObj ms => inr (match lookup key ms with Some v => v | None => JNull end)
  | _ => inl 305
  end.

(** [j[idx]] on a non-const value: [null] turns into an array, an array that
    is too short is filled up with [null]. *)
Definition at_index (j : json) (idx : nat) : Z + json :=
  match j with
  | JNull => inr JNull
  | JArr items => inr (nth idx items JNull)
  | _ => inl 305
  end.

(** The implicit conversion to [std::string]. *)
Definition get_string (j : json) : Z + string :=
  match j with
  | JStr s => inr s
  | _ => inl 302
  end.

Definition and_then {A B} (x : Z + A) (f : A -> Z + B) : Z + B :=
  match x with
  | inl e => inl e
  | inr a => f a
  end.

End Json.

(** ** OpenCV *)

Module Cv.

(** [image.empty()] *)
Definition empty {A} (m : list (list A)) : bool :=
  match concat m with
  | [] => true
  | _ => false
  end.

(** One pixel of [cv::cvtColor(_, _, cv::COLOR_BGR2GRAY)] on 8-bit data. *)
Definition gray_of (c : GrayCoeffs) (p : Vec3b) : Z :=
  Z.shiftr (blue p * B2Y c + green p * G2Y c + red p * R2Y c
            + Z.shiftl 1 (gray_shift c - 1)) (gray_shift c).

Definition cvtColor_BGR2GRAY (c : GrayCoeffs) (m : Mat3) : Mat1 :=
  map (map (gray_of c)) m.

(** A single-channel image read back with [cv::imread]'s default
    [IMREAD_COLOR]: every channel holds the gray value. *)
Definition gray_as_bgr (g : Mat1) : Mat3 :=
  map (map (fun v => BGR v v v)) g.

Definition pixel_ok (v : Z) : Prop := 0 <= v <= 255.

(** The two sets of constants OpenCV has shipped for this conversion. *)
Definition coeffs14 : GrayCoeffs := mkGrayCoeffs 1868 9617 4899 14.
Definition coeffs15 : GrayCoeffs := mkGrayCoeffs 3735 19235 9798 15.

Definition coeffs_ok (c : GrayCoeffs) : Prop :=
  0 < gray_shift c /\ B2Y c + G2Y c + R2Y c = 2 ^ gray_shift c.

End Cv.

(** ** The functions the three variants share

    The three files agree on these functions up to the wording of two
    messages, collected in [Texts].  A message is the text sent before
    [std::endl]. *)

Record Texts : Type := mkTexts {
  unreadable_pre : string;
  unreadable_post : string;
  parse_error_pre : string
}.

Definition ENDPOINT : string :=
  "https://generativelanguage.googleapis.com/v1beta/models/" +:+
  "gemini-2.5-flash-lite" +:+ ":generateContent?key=".

Definition IMAGES_DIR : string := "images/".
Definition GSIMAGES_DIR : string := "gs-images/".
Definition APIKEY_FILE : string := "googleai.key".

(** [{"contents", {{{"role", "user"}, {"parts", {{{"text", prompt}}}}}}}] *)
Definition request_body (prompt : string) : json :=
  JObj [("contents",
         JArr [JObj [("parts", JArr [JObj [("text", JStr prompt)]]);
                     ("role", JStr "user")]])].

Section Common.

Context (w : World) (tx : Texts).

Definition makeDir (dir : string) : M unit :=
  t <- tick ;;
  if stat_fails w t dir then emit (EvMkdir dir) else ret tt.

Definition isAccessible (url : string) : M bool :=
  t0 <- tick ;;
  if negb (curl_easy_init w t0) then ret false
  else
    t1 <- tick ;;
    let '(res, code) := perform_head w t1 url in
    let response_code := if res =? CURLE_OK then code else 0 in
    emit (EvHead url res response_code) ;;;
    ret ((res =? CURLE_OK) && (response_code =? 200)).

Definition toGrayscale (input output : string) : M unit :=
  content <- read_file input ;;
  emit (EvImread input) ;;;
  let image := match content with
               | Some data => imdecode w data
               | None => []
               end in
  if Cv.empty image then
    cerr (unreadable_pre tx +:+ input +:+ unreadable_post tx)
  else
    let gray := Cv.cvtColor_BGR2GRAY (gray_coeffs w) image in
    t <- tick ;;
    emit (EvImwrite output gray) ;;;
    match imencode w t output gray with
    | Some data => write_file output data
    | None => ret tt
    end.

Definition postToGemini (apiKey prompt : string) : M string :=
  t0 <- tick ;;
  if negb (curl_easy_init w t0) then ret ""
  else
    let url := ENDPOINT +:+ apiKey in
    let body := request_body prompt in
    t1 <- tick ;;
    let '(res, readBuffer) := perform_post w t1 url body in
    emit (EvPost url body res) ;;;
    if negb (res =? CURLE_OK) then
      cerr ("Error in request: " +:+ curl_easy_strerror w res) ;;;
      ret ""
    else ret readBuffer.

(** [j["candidates"][0]["content"]["parts"][0]["text"]], converted to a
    string. *)
Definition first_candidate_text (j : json) : Z + string :=
  Json.and_then (Json.at_key j "candidates") (fun c =>
  Json.and_then (Json.at_index c 0) (fun c0 =>
  Json.and_then (Json.at_key c0 "content") (fun content =>
  Json.and_then (Json.at_key content "parts") (fun parts =>
  Json.and_then (Json.at_index parts 0) (fun p0 =>
  Json.and_then (Json.at_key p0 "text") Json.get_string))))).

Definition extractTextFromGemini (response : string) : M string :=
  match json_parse w response with
  | inl what => cerr (parse_error_pre tx +:+ what) ;;; ret ""
  | inr j =>
      if Json.contains j "candidates" &&
         negb (Json.empty (match Json.at_key j "candidates" with
                           | inr c => c
                           | inl _ => JNull
                           end))
      then match first_candidate_text j with
           | inr text => ret text
           | inl id => cerr (parse_error_pre tx +:+ json_type_error w id) ;;; ret ""
           end
      else ret ""
  end.

(** [line.find("http") != std::string::npos] *)
Definition has_http (line : string) : bool :=
  match Str.find line "http" with
  | Some _ => true
  | None => false
  end.

(** [while (std::getline(iss, line)) if (...) urls.push_back(line);] with
    [iss] the unread part of the stream.  Every round consumes at least one
    character, so [fuel] above the length of [iss] is never used up. *)
Fixpoint split_lines (fuel : nat) (iss : string) (urls : list string)
  : list string :=
  match fuel with
  | O => urls
  | S fuel' =>
      match Str.getline iss with
      | None => urls
      | Some (line, rest) =>
          split_lines fuel' rest
            (if has_http line then urls ++ [line] else urls)
      end
  end.

Definition candidate_lines (urlsText : string) : list string :=
  split_lines (S (String.length urlsText)) urlsText [].

(** [for (const auto& url : urls) if (isAccessible(url)) { acc.push_back(url);
    if (acc.size() == (size_t)n) break; }] *)
Fixpoint check_accessible (n : Z) (urls acc : list string) : M (list string) :=
  match urls with
  | [] => ret acc
  | url :: rest =>
      ok <- isAccessible url ;;
      if ok then
        let acc' := acc ++ [url] in
        if size acc' =? size_t_of_int n then ret acc'
        else check_accessible n rest acc'
      else check_accessible n rest acc
  end.

(** [std::getline(keyFile, apiKey)] on a fresh, empty [apiKey]. *)
Definition read_key (content : string) : string :=
  match Str.getline content with
  | Some (line, _) => line
  | None => ""
  end.

End Common.

(** [IMAGES_DIR + std::to_string(i + 1) + ".jpg"] and its grayscale twin. *)
Definition image_file (i : Z) : string := IMAGES_DIR +:+ Str.of_Z (i + 1) +:+ ".jpg".
Definition gray_file (i : Z) : string := GSIMAGES_DIR +:+ Str.of_Z (i + 1) +:+ ".jpg".

(** ** The single-pass variant (src/imageprocessing.cpp) *)

Module SinglePass.

Definition texts : Texts :=
  mkTexts "Error: could not read " "" "Error parsing Gemini response: ".

Section Program.

Context (w : World).

Definition downloadImage (url filename : string) : M bool :=
  t0 <- tick ;;
  if negb (curl_easy_init w t0) then ret false
  else
    t1 <- tick ;;
    if negb (fopen_wb w t1 filename) then ret false
    else
      write_file filename "" ;;;
      t2 <- tick ;;
      let '(res, data) := perform_get w t2 url in
      write_file filename data ;;;
      emit (EvGet url filename res) ;;;
      ret (res =? CURLE_OK).

Definition generationPrompt (numImages : Z) : string :=
  "Generate " +:+ Str.of_Z numImages +:+
  " public domain image URL (JPEG or PNG, no Wikimedia). " +:+
  "The URL must point directly to a valid image file " +:+
  "ending with .jpg or .png, " +:+
  "and be less than 200 KB. Provide plain text output.".

Definition extractionPrompt (genText : string) : string :=
  "Extract all URLs from the following text. " +:+
  "Return them as a plain text list, one URL per line." +:+
  String "010" "Text: " +:+ genText.

Definition generateImageUrls (apiKey : string) (numImages : Z)
  : M (list string) :=
  generationResponse <- postToGemini w apiKey (generationPrompt numImages) ;;
  genText <- extractTextFromGemini w texts generationResponse ;;
  if String.eqb genText "" then
    cerr "Gemini generation returned empty text." ;;;
    ret []
  else
    extractionResponse <- postToGemini w apiKey (extractionPrompt genText) ;;
    urlsText <- extractTextFromGemini w texts extractionResponse ;;
    if String.eqb urlsText "" then
      cerr "Gemini extraction returned empty text." ;;;
      ret []
    else
      let urls := candidate_lines urlsText in
      check_accessible w numImages urls [].

(** The body of the [for] loop of [main]. *)
Definition process_item (url : string) (i : Z) : M unit :=
  let filename := image_file i in
  ok <- downloadImage url filename ;;
  if ok then
    cout ("Downloaded: " +:+ filename) ;;;
    let grayFile := gray_file i in
    toGrayscale w texts filename grayFile ;;;
    cout ("Saved grayscale: " +:+ grayFile)
  else
    cerr ("Failed to download: " +:+ url).

Fixpoint process_items (imageUrls : list string) (i : Z) : M unit :=
  match imageUrls with
  | [] => ret tt
  | url :: rest => process_item url i ;;; process_items rest (i + 1)
  end.

Definition main : M Z :=
  keyFile <- read_file "googleai.key" ;;
  match keyFile with
  | None => cerr "Missing googleai.key" ;;; ret 1
  | Some content =>
      let apiKey := read_key content in
      makeDir w "images" ;;;
      makeDir w "gs-images" ;;;
      imageUrls <- generateImageUrls apiKey 2 ;;
      process_items imageUrls 0 ;;;
      ret 0
  end.

End Program.

End SinglePass.

(** ** libc's [atoi] *)

Module Libc.

Definition isspace (c : ascii) : bool :=
  let n := nat_of_ascii c in
  (Nat.eqb n 32 || (Nat.leb 9 n && Nat.leb n 13))%bool.

Definition isdigit (c : ascii) : bool :=
  let n := nat_of_ascii c in (Nat.leb 48 n && Nat.leb n 57)%bool.

Fixpoint skip_spaces (s : string) : string :=
  match s with
  | String c s' => if isspace c then skip_spaces s' else s
  | EmptyString => EmptyString
  end.

Fixpoint digits (s : string) (acc : Z) : Z :=
  match s with
  | String c s' =>
      if isdigit c then digits s' (acc * 10 + Z.of_nat (nat_of_ascii c - 48))
      else acc
  | EmptyString => acc
  end.

(** The optional sign in front of the digits: whether it is a minus, and
    what follows it. *)
Definition split_sign (s : string) : bool * string :=
  match s with
  | String c s' =>
      if Ascii.eqb c "-" then (true, s')
      else if Ascii.eqb c "+" then (false, s')
      else (false, s)
  | EmptyString => (false, EmptyString)
  end.

(** [strtol(s, NULL, 10)]: out of range values saturate. *)
Definition strtol (s : string) : Z :=
  let '(minus, ds) := split_sign (skip_spaces s) in
  let v := digits ds 0 in
  Z.max LONG_MIN (Z.min LONG_MAX (if minus then - v else v)).

(** [atoi(s)] is [(int) strtol(s, NULL, 10)]. *)
Definition atoi (s : string) : Z := int_of_long (strtol s).

(** No digit where the number should start: there is nothing to convert. *)
Definition non_numeric (s : string) : bool :=
  match snd (split_sign (skip_spaces s)) with
  | String c _ => negb (isdigit c)
  | EmptyString => true
  end.

End Libc.

(** ** The looping variants (src/unnamed/part_000, src/unnamed/part_001) *)

Module Looping.

Definition texts_000 : Texts :=
  mkTexts "Error: unable to read " " file"
          "Error when parsing response from Google Gemini: ".

Definition texts_001 : Texts :=
  mkTexts "Error: unable to read " ""
          "Error when parsing response from Google Gemini: ".

Section Program.

Context (w : World) (tx : Texts).

Definition downloadImage (url filename : string) : M unit :=
  t0 <- tick ;;
  if negb (curl_easy_init w t0) then exit 1
  else
    t1 <- tick ;;
    if negb (fopen_wb w t1 filename) then exit 1
    else
      write_file filename "" ;;;
      t2 <- tick ;;
      let '(res, data) := perform_get w t2 url in
      write_file filename data ;;;
      emit (EvGet url filename res).

Definition generationPrompt (numimages : Z) : string :=
  "Generate " +:+ Str.of_Z numimages +:+
  " public domain image URLs (either JPEG or PNG format)" +:+
  " from trusted public domain image repositories. Exclude" +:+
  " Wikimedia Commons and related sites. The URL must directly" +:+
  " point to a valid image file ending with.jpg or .png, and" +:+
  " the file size must be less than 200 KB. Provide the final" +:+
  " image URLs in plain text.".

Definition extractionPrompt (genText : string) : string :=
  "Extract all URLs from the following contents into a plain text " +:+
  "list. Each URL must be on a new line. These are the contents: " +:+
  genText.

(** The body of the [while] loop of [generateImageUrls]. *)
Definition cycle (apiKey : string) (numimages : Z) (image_urls : list string)
  : M (list string) :=
  generationResponse <- postToGemini w apiKey (generationPrompt numimages) ;;
  genText <- extractTextFromGemini w tx generationResponse ;;
  extractionResponse <- postToGemini w apiKey (extractionPrompt genText) ;;
  urlsText <- extractTextFromGemini w tx extractionResponse ;;
  let candidate_urls := candidate_lines urlsText in
  check_accessible w numimages candidate_urls image_urls.

(** [while (image_urls.size() < (size_t)numimages) { ... }]; the loop has no
    bound of its own, [fuel] bounds the number of rounds of a run. *)
Fixpoint generateImageUrls_from (fuel : nat) (apiKey : string) (numimages : Z)
  (image_urls : list string) : M (list string) :=
  if size image_urls <? size_t_of_int numimages then
    match fuel with
    | O => diverge
    | S fuel' =>
        image_urls' <- cycle apiKey numimages image_urls ;;
        generateImageUrls_from fuel' apiKey numimages image_urls'
    end
  else ret image_urls.

Definition generateImageUrls (fuel : nat) (apiKey : string) (numimages : Z)
  : M (list string) :=
  generateImageUrls_from fuel apiKey numimages [].

(** The body of the [for] loop of [main]. *)
Definition process_item (url : string) (i : Z) : M unit :=
  let filename := image_file i in
  let grayFile := gray_file i in
  downloadImage url filename ;;;
  toGrayscale w tx filename grayFile.

Fixpoint process_items (imageUrls : list string) (i : Z) : M unit :=
  match imageUrls with
  | [] => ret tt
  | url :: rest => process_item url i ;;; process_items rest (i + 1)
  end.

Definition main (fuel : nat) (argv : list string) : M Z :=
  keyFile <- read_file APIKEY_FILE ;;
  match keyFile with
  | None => cerr "API key file is missing" ;;; ret 1
  | Some content =>
      let apiKey := read_key content in
      makeDir w IMAGES_DIR ;;;
      makeDir w GSIMAGES_DIR ;;;
      if size argv =? 2 then
        let numimages := Libc.atoi (nth 1 argv "") in
        imageUrls <- generateImageUrls fuel apiKey numimages ;;
        process_items imageUrls 0 ;;;
        ret 0
      else
        cerr "Error: the number of images to process is missing." ;;;
        ret 1
  end.

End Program.

End Looping.

(** ** Notions used to state the properties *)

(** [url] passed the liveness check at some moment [t] between [t0] and
    [t1]: the probe made then answered [CURLE_OK] with status 200, and the
    run recorded it in [evs]. *)
Definition passed_check (w : World) (evs : list event) (t0 t1 : nat)
  (url : string) : Prop :=
  In (EvHead url CURLE_OK 200) evs /\
  exists t, (t0 <= t < t1)%nat /\
            curl_easy_init w t = true /\
            perform_head w (S t) url = (CURLE_OK, 200).

(** Nothing but liveness probes. *)
Definition only_probes (evs : list event) : Prop :=
  Forall (fun e => exists u r c, e = EvHead u r c) evs.

(** The filtering loop without its [break]: every candidate is probed and
    every one that answers is kept. *)
Fixpoint check_all (w : World) (urls acc : list string) : M (list string) :=
  match urls with
  | [] => ret acc
  | url :: rest =>
      ok <- isAccessible w url ;;
      check_all w rest (if ok then acc ++ [url] else acc)
  end.

(** [k] rounds of the generate, extract and filter cycle, one after the
    other, each starting from the list the one before it left. *)
Fixpoint cycles (w : World) (tx : Texts) (k : nat) (apiKey : string)
  (numimages : Z) (image_urls : list string) : M (list string) :=
  match k with
  | O => ret image_urls
  | S k' =>
      image_urls' <- Looping.cycle w tx apiKey numimages image_urls ;;
      cycles w tx k' apiKey numimages image_urls'
  end.

(** Every event a computation emits, from whatever state, satisfies [P]. *)
Definition emits_only {A} (P : event -> Prop) (m : M A) : Prop :=
  forall s, Forall P (events (m s)).

(** A computation that always comes back, leaves the files alone and never
    turns the clock back. *)
Definition returns {A} (m : M A) : Prop :=
  forall s, exists evs a s',
    m s = (evs, Done a s') /\ fs s' = fs s /\ (clock s <= clock s')%nat.

(** A generation request carries the key [apiKey] in its URL. *)
Definition keyed_with (apiKey : string) (e : event) : Prop :=
  match e with
  | EvPost url _ _ => url = ENDPOINT +:+ apiKey
  | _ => True
  end.

Definition offline (e : event) : Prop := is_network e = false.

(** ** Stand-ins for the outside world, to run the program on *)

(** A response of the endpoint whose first candidate carries [text]. *)
Definition gemini_reply (text : string) : json :=
  JObj [("candidates",
         JArr [JObj [("content",
                      JObj [("parts", JArr [JObj [("text", JStr text)]])])]])].

(** A world where every request is answered with [listing], a body the
    parser reads as the reply carrying it; where a probe of [url] at moment
    [t] answers 200 when [alive t url] and 404 otherwise; where curl starts
    when [curl_up], files open when [disk_ok], and a download ends with the
    code [get_res]. *)
Definition fake_world (listing : string) (alive : nat -> string -> bool)
  (curl_up disk_ok : bool) (get_res : Z) : World :=
  mkWorld (fun _ => curl_up)
          (fun _ _ _ => (CURLE_OK, listing))
          (fun t url => (CURLE_OK, if alive t url then 200 else 404))
          (fun _ _ => (get_res, "JFIF"))
          (fun _ => "transfer failed")
          (fun _ _ => false)
          (fun _ _ => disk_ok)
          (fun body => inr (gemini_reply body))
          (fun _ => "type_error")
          (fun _ => [[BGR 10 20 30]])
          (fun _ _ _ => Some "GRAY")
          Cv.coeffs14.

Definition newline : string := String "010" "".

Definition listing3 : string :=
  "http://a/1.jpg" +:+ newline +:+ "nope" +:+ newline +:+
  "http://b/2.jpg" +:+ newline +:+ "http://c/3.png".

Definition all_but_b (t : nat) (url : string) : bool :=
  negb (String.eqb url "http://b/2.jpg").

Definition boot : State := mkState 0 ∅.

(** The single-pass harvester as it would be with no stop at a count: the
    same two requests, then every candidate probed and every live one
    returned. *)
Definition harvest_every_live (w : World) (apiKey : string) (numImages : Z)
  : M (list string) :=
  generationResponse <-
    postToGemini w apiKey (SinglePass.generationPrompt numImages) ;;
  genText <- extractTextFromGemini w SinglePass.texts generationResponse ;;
  if String.eqb genText "" then
    cerr "Gemini generation returned empty text." ;;;
    ret []
  else
    extractionResponse <-
      postToGemini w apiKey (SinglePass.extractionPrompt genText) ;;
    urlsText <- extractTextFromGemini w SinglePass.texts extractionResponse ;;
    if String.eqb urlsText "" then
      cerr "Gemini extraction returned empty text." ;;;
      ret []
    else
      check_all w (candidate_lines urlsText) [].

(** Three candidates of which two are alive, and the state a run starts in. *)
Definition two_alive : World :=
  fake_world listing3 all_but_b true true CURLE_OK.

(** The character [c] occurs in [s]. *)
Fixpoint has_char (c : ascii) (s : string) : bool :=
  match s with
  | EmptyString => false
  | String d s' => (Ascii.eqb d c || has_char c s')%bool
  end.

(** What a run does besides writing to [std::cout] and [std::cerr]. *)
Definition effects (evs : list event) : list event :=
  List.filter (fun e => negb (is_log e)) evs.

(** A state whose credential file holds ["ABC123\n"]. *)
Definition keyed_boot : State :=
  mkState 0 {[ APIKEY_FILE := "ABC123" +:+ newline ]}.

(** [w] with a decoder that reads every file as the image [image]. *)
Definition with_image (w : World) (image : Mat3) : World :=
  mkWorld (curl_easy_init w) (perform_post w) (perform_head w)
          (perform_get w) (curl_easy_strerror w) (stat_fails w) (fopen_wb w)
          (json_parse w) (json_type_error w)
          (fun _ => image) (imencode w) (gray_coeffs w).

Definition gray2x2 : Mat1 := [[7; 200]; [0; 255]].

(** A state holding one image file, already downloaded. *)
Definition one_image : State :=
  mkState 0 {[ image_file 0 := "JFIF" ]}.

(** The state a transfer into [file] leaves: three library calls made, the
    file created empty by [fopen] and then filled with what arrived. *)
Definition downloaded (s : State) (file data : string) : State :=
  mkState (S (S (S (clock s)))) (<[file := data]> (<[file := ""]> (fs s))).

(** Curl up, the disk refusing to open files for writing. *)
Definition disk_full : World :=
  fake_world listing3 all_but_b true false CURLE_OK.

(** Curl up, files opening, every transfer ending with [CURLE_COULDNT_CONNECT]. *)
Definition no_route : World :=
  fake_world listing3 all_but_b true true 7.

(** [main] of the looping variants from the creation of the directories to
    the return of the harvester, for a credential file holding [content]. *)
Definition harvest_phase (w : World) (tx : Texts) (fuel : nat)
  (argv : list string) (content : string) : M (list string) :=
  makeDir w IMAGES_DIR ;;;
  makeDir w GSIMAGES_DIR ;;;
  Looping.generateImageUrls w tx fuel (read_key content)
    (Libc.atoi (nth 1 argv "")).

(** One candidate, always alive. *)
Definition always_a : World :=
  fake_world "http://a/1.jpg" (fun _ _ => true) true true CURLE_OK.

(** No probe ever succeeds in [w]. *)
Definition never_alive (w : World) : Prop :=
  forall t url,
    curl_easy_init w t = true -> perform_head w (S t) url <> (CURLE_OK, 200).

(** ** Further notions *)

(** The text whose lines are [l]: every line followed by a newline. *)
Fixpoint unlines (l : list string) : string :=
  match l with
  | [] => ""
  | x :: rest => x +:+ String "010" (unlines rest)
  end.

(** [s] is empty or ends with a newline. *)
Fixpoint terminated (s : string) : bool :=
  match s with
  | EmptyString => true
  | String c s' =>
      match s' with
      | EmptyString => Ascii.eqb c "010"
      | String _ _ => terminated s'
      end
  end.

(** [w] with a parser that reads every body as the value [j]. *)
Definition with_reply (w : World) (j : json) : World :=
  mkWorld (curl_easy_init w) (perform_post w) (perform_head w)
          (perform_get w) (curl_easy_strerror w) (stat_fails w) (fopen_wb w)
          (fun _ => inr j) (json_type_error w)
          (imdecode w) (imencode w) (gray_coeffs w).

(** Every reply has one candidate, and the candidate has no content. *)
Definition hollow_reply : World :=
  with_reply two_alive (JObj [("candidates", JArr [JObj []])]).

(** A candidate as the line filter leaves it. *)
Definition clean_candidate (u : string) : Prop :=
  has_http u = true /\ has_char "010" u = false.

Definition is_post (e : event) : bool :=
  match e with
  | EvPost _ _ _ => true
  | _ => false
  end.

(** The number of generation requests among [evs]. *)
Definition count_posts (evs : list event) : nat :=
  List.length (List.filter is_post evs).

(** [evs] ends with the successful probe of the last URL of [urls]. *)
Definition ends_with_accepting (evs : list event) (urls : list string)
  : Prop :=
  exists evs0 u,
    evs = evs0 ++ [EvHead u CURLE_OK 200] /\ last urls = Some u.

(** The state a computation ends in, when it ends. *)
Definition final_state {A} (r : Res A) : option State :=
  match r with
  | Done _ s => Some s
  | Exited _ s => Some s
  | Diverged => None
  end.

(** [path] is the name of a downloaded image or of its grayscale twin. *)
Definition ordinal_file (path : string) : Prop :=
  exists j, path = image_file j \/ path = gray_file j.

(** Whenever it ends, [m] has changed no file outside [ok]. *)
Definition touches_only {A} (ok : string -> Prop) (m : M A) : Prop :=
  forall s,
    match final_state (outcome (m s)) with
    | Some s' => forall path, ~ ok path -> fs s' !! path = fs s !! path
    | None => True
    end.

(** The item [url], stored under [file], was dealt with in [evs]: a
    transfer was made for it, or its failure was logged. *)
Definition handled (evs : list event) (url file : string) : Prop :=
  (exists res, In (EvGet url file res) evs) \/
  In (EvStderr ("Failed to download: " +:+ url)) evs.

(** [WriteCallback(contents, size, nmemb, userp)] of the three files (named
    [writeCallback] in two of them): [contents] is the block libcurl points
    at, of which the first [size * nmemb] bytes are appended to the string
    behind [userp]; the result is that string and the returned count. *)
Definition WriteCallback (contents : string) (size_ nmemb : Z)
  (userp : string) : string * Z :=
  (userp +:+ String.substring 0 (Z.to_nat (size_ * nmemb)) contents,
   size_ * nmemb).

(** The callback called on one block after the other, each block handed
    over whole as [nmemb] items of size 1: the string at the end, and whether
    every call returned the count it was given. *)
Fixpoint deliver (blocks : list string) (userp : string) : string * bool :=
  match blocks with
  | [] => (userp, true)
  | b :: rest =>
      let nmemb := Z.of_nat (String.length b) in
      let '(userp', handled_bytes) := WriteCallback b 1 nmemb userp in
      let '(final, all_ok) := deliver rest userp' in
      (final, (handled_bytes =? 1 * nmemb) && all_ok)
  end.

Fixpoint concat_strings (l : list string) : string :=
  match l with
  | [] => ""
  | x :: rest => x +:+ concat_strings rest
  end.

(** [rest] does not go on with a digit. *)
Definition ends_number (rest : string) : Prop :=
  match rest with
  | String c _ => Libc.isdigit c = false
  | EmptyString => True
  end.

(** The first phase of a harvest: the generation request and the reading
    of its reply. *)
Definition generation_phase (w : World) (apiKey : string) (numImages : Z)
  : M string :=
  generationResponse <-
    postToGemini w apiKey (SinglePass.generationPrompt numImages) ;;
  extractTextFromGemini w SinglePass.texts generationResponse.

(** An endpoint that answers every request with an empty text. *)
Definition mute : World :=
  fake_world "" (fun _ _ => true) true true CURLE_OK.

(** ** What libcurl reads of a string, and the phases of the single pass *)

(** [s.c_str()] as a C function reads it: the bytes up to the first NUL. *)
Fixpoint c_str (s : string) : string :=
  match s with
  | EmptyString => EmptyString
  | String c s' =>
      if Ascii.eqb c "000" then EmptyString else String c (c_str s')
  end.

(** [main] of the single pass from the creation of the directories to the
    return of the harvester, for a credential file holding [content]. *)
Definition single_pass_harvest_phase (w : World) (content : string)
  : M (list string) :=
  makeDir w "images" ;;;
  makeDir w "gs-images" ;;;
  SinglePass.generateImageUrls w (read_key content) 2.

(** Three candidates of which one is alive. *)
Definition one_alive : World :=
  fake_world listing3 (fun _ url => String.eqb url "http://a/1.jpg")
             true true CURLE_OK.

(** * Properties *)

(** ** Strings *)

Lemma append_cons (c : ascii) (s t : string) :
  String c s +:+ t = String c (s +:+ t).
Proof. reflexivity. Qed.

Lemma append_nil_l (t : string) : "" +:+ t = t.
Proof. reflexivity. Qed.

Lemma append_nil_r (s : string) : s +:+ "" = s.
Proof.
  induction s as [|c s IH]; [reflexivity|]. now rewrite append_cons, IH.
Qed.

Lemma append_assoc (a b c : string) : (a +:+ b) +:+ c = a +:+ (b +:+ c).
Proof.
  induction a as [|x a IH]; [reflexivity|]. now rewrite !append_cons, IH.
Qed.

Lemma starts_with_spec (p s : string) :
  Str.starts_with p s = true <-> exists post, s = p +:+ post.
Proof.
  revert s. induction p as [|a p IH]; intros s; cbn [Str.starts_with].
  - split; [intros _; now exists s | reflexivity].
  - destruct s as [|b s].
    + split; [discriminate | intros [post H]; discriminate].
    + destruct (Ascii.eqb_spec a b) as [->|Hne].
      * rewrite IH. split; intros [post H]; exists post;
          rewrite append_cons in *; congruence.
      * split; [discriminate |].
        intros [post H]; rewrite append_cons in H; congruence.
Qed.

Lemma find_from_Some (p s : string) (pos i : nat) :
  Str.find_from p s pos = Some i -> Str.substring_of p s.
Proof.
  revert pos. induction s as [|c s IH]; intros pos; simpl.
  - destruct (Str.starts_with p "") eqn:E; [|discriminate].
    intros _. apply starts_with_spec in E as [post E].
    now exists "", post.
  - destruct (Str.starts_with p (String c s)) eqn:E.
    + intros _. apply starts_with_spec in E as [post E].
      now exists "", post.
    + intros H. apply IH in H as (pre & post & ->).
      now exists (String c pre), post.
Qed.

Lemma find_from_None (p s : string) (pos : nat) :
  Str.find_from p s pos = None -> ~ Str.substring_of p s.
Proof.
  revert pos. induction s as [|c s IH]; intros pos; simpl.
  - destruct (Str.starts_with p "") eqn:E; [discriminate|].
    intros _ (pre & post & H).
    destruct pre.
    + assert (Str.starts_with p "" = true) by (apply starts_with_spec; eauto).
      congruence.
    + discriminate.
  - destruct (Str.starts_with p (String c s)) eqn:E; [discriminate|].
    intros H (pre & post & Heq).
    destruct pre as [|x pre]; [|rewrite append_cons in Heq].
    + assert (Str.starts_with p (String c s) = true)
        by (apply starts_with_spec; eauto).
      congruence.
    + injection Heq as _ Heq. apply (IH _ H). now exists pre, post.
Qed.

Lemma has_http_spec (line : string) :
  has_http line = true <-> Str.substring_of "http" line.
Proof.
  unfold has_http, Str.find.
  destruct (Str.find_from "http" line 0) eqn:E.
  - split; [intros _; eapply find_from_Some; eauto | reflexivity].
  - split; [discriminate | intros H; now apply find_from_None in E].
Qed.

Lemma lines_getline (s : string) :
  Str.lines s = match Str.getline s with
                | None => []
                | Some (l, rest) => l :: Str.lines rest
                end.
Proof.
  induction s as [|c s IH]; [reflexivity|].
  cbn [Str.lines Str.getline Str.read_line].
  destruct (Ascii.eqb c "010"); [reflexivity|].
  rewrite IH. destruct s as [|d s]; [reflexivity|].
  cbn [Str.getline]. now destruct (Str.read_line (String d s)).
Qed.

Lemma read_line_length (s : string) :
  (String.length (snd (Str.read_line s)) <= String.length s)%nat.
Proof.
  induction s as [|c s IH]; simpl; [lia|].
  destruct (Ascii.eqb c "010"); simpl; [lia|].
  destruct (Str.read_line s); simpl in *; lia.
Qed.

Lemma getline_shorter (s l rest : string) :
  Str.getline s = Some (l, rest) ->
  (String.length rest < String.length s)%nat.
Proof.
  destruct s as [|c s]; [discriminate|].
  cbn [Str.getline Str.read_line]. intros H.
  destruct (Ascii.eqb c "010").
  - injection H as _ <-. simpl; lia.
  - pose proof (read_line_length s) as Hl.
    destruct (Str.read_line s); injection H as _ <-. simpl in *; lia.
Qed.

Lemma split_lines_spec (fuel : nat) (iss : string) (urls : list string) :
  (String.length iss < fuel)%nat ->
  split_lines fuel iss urls = urls ++ List.filter has_http (Str.lines iss).
Proof.
  revert iss urls. induction fuel as [|fuel IH]; intros iss urls Hlt; [lia|].
  cbn [split_lines]. rewrite (lines_getline iss).
  destruct (Str.getline iss) as [[l rest]|] eqn:E.
  - apply getline_shorter in E. rewrite IH by lia.
    cbn [List.filter]. destruct (has_http l); [|reflexivity].
    now rewrite <- app_assoc.
  - now rewrite app_nil_r.
Qed.

(** C3: a line of the extraction output becomes a candidate exactly when it
    contains "http" somewhere; the candidates are the lines of the text, in
    order, that do.  "See https://x.com/a.jpg" and "httpfoo" are accepted,
    "no link here" is rejected: nothing but the substring is looked at. *)
Theorem line_filter_http :
  (forall urlsText,
     candidate_lines urlsText = List.filter has_http (Str.lines urlsText)) /\
  (forall urlsText line,
     In line (candidate_lines urlsText) <->
     In line (Str.lines urlsText) /\ Str.substring_of "http" line) /\
  (forall line, has_http line = true <-> Str.substring_of "http" line) /\
  has_http "See https://x.com/a.jpg" = true /\
  has_http "httpfoo" = true /\
  has_http "no link here" = false.
Proof.
  assert (H : forall urlsText,
             candidate_lines urlsText = List.filter has_http (Str.lines urlsText)).
  { intros t. unfold candidate_lines. now rewrite split_lines_spec by lia. }
  split; [exact H|]. split.
  - intros t line. rewrite H, filter_In, has_http_spec. reflexivity.
  - split; [exact has_http_spec|]. now vm_compute.
Qed.

(** ** Running the monad *)

Lemma bind_done {A B} (m : M A) (k : A -> M B) s e1 a s1 :
  m s = (e1, Done a s1) ->
  bind m k s = (e1 ++ fst (k a s1), snd (k a s1)).
Proof. intros H. unfold bind. rewrite H. now destruct (k a s1). Qed.

Lemma bind_exited {A B} (m : M A) (k : A -> M B) s e1 c s1 :
  m s = (e1, Exited c s1) -> bind m k s = (e1, Exited c s1).
Proof. intros H. unfold bind. now rewrite H. Qed.

Lemma bind_diverged {A B} (m : M A) (k : A -> M B) s e1 :
  m s = (e1, Diverged) -> bind m k s = (e1, Diverged).
Proof. intros H. unfold bind. now rewrite H. Qed.

Lemma bind_read_file {B} (path : string) (k : option string -> M B) s :
  bind (read_file path) k s = k (fs s !! path) s.
Proof. unfold bind, read_file. now destruct (k (fs s !! path) s). Qed.

Lemma bind_done_inv {A B} (m : M A) (k : A -> M B) s evs b s' :
  bind m k s = (evs, Done b s') ->
  exists e1 a s1 e2,
    m s = (e1, Done a s1) /\ k a s1 = (e2, Done b s') /\ evs = e1 ++ e2.
Proof.
  unfold bind. destruct (m s) as [e1 [a s1|c s1|]]; try discriminate.
  destruct (k a s1) as [e2 r] eqn:E. intros H. injection H as <- ->.
  now exists e1, a, s1, e2.
Qed.

Section CommonFacts.

Context (w : World).

Lemma isAccessible_run (url : string) (s : State) :
  isAccessible w url s =
  if curl_easy_init w (clock s) then
    let '(res, code) := perform_head w (S (clock s)) url in
    let response_code := if res =? CURLE_OK then code else 0 in
    ([EvHead url res response_code],
     Done ((res =? CURLE_OK) && (response_code =? 200))
          (mkState (S (S (clock s))) (fs s)))
  else ([], Done false (mkState (S (clock s)) (fs s))).
Proof.
  unfold isAccessible, bind, tick, emit, ret. cbn [clock fs].
  destruct (curl_easy_init w (clock s)); cbn [negb clock fs]; [|reflexivity].
  now destruct (perform_head w (S (clock s)) url).
Qed.

(** What a probe leaves behind: always an answer, the file system untouched,
    the clock advanced; and a positive answer only for [CURLE_OK] and 200. *)
Lemma isAccessible_spec (url : string) (s : State) :
  exists evs ok s',
    isAccessible w url s = (evs, Done ok s') /\
    fs s' = fs s /\ (clock s < clock s')%nat /\
    Forall (fun e => exists r c, e = EvHead url r c) evs /\
    (ok = true -> passed_check w evs (clock s) (clock s') url).
Proof.
  rewrite isAccessible_run.
  destruct (curl_easy_init w (clock s)) eqn:Hinit.
  - destruct (perform_head w (S (clock s)) url) as [res code] eqn:Hp.
    eexists _, _, _. split; [reflexivity|]. cbn [fs clock].
    split; [reflexivity|]. split; [lia|]. split; [repeat constructor; eauto|].
    intros Hok. apply andb_true_iff in Hok as [Hr Hc].
    apply Z.eqb_eq in Hr. subst res. cbn in Hc. apply Z.eqb_eq in Hc.
    subst code. split; [now left|].
    exists (clock s). repeat split; auto; lia.
  - eexists _, _, _. split; [reflexivity|]. cbn [fs clock].
    split; [reflexivity|]. split; [lia|]. split; [constructor | discriminate].
Qed.

End CommonFacts.

Section FilterFacts.

Context (w : World).

Lemma passed_check_mono evs evs1 evs2 (t0 t1 t0' t1' : nat) url :
  passed_check w evs t0 t1 url ->
  (t0' <= t0)%nat -> (t1 <= t1')%nat ->
  passed_check w (evs1 ++ evs ++ evs2) t0' t1' url.
Proof.
  intros [Hin (t & Ht & Hi & Hp)] H0 H1. split.
  - apply in_or_app. right. apply in_or_app. now left.
  - exists t. repeat split; auto; lia.
Qed.

Lemma size_app {A} (l1 l2 : list A) : size (l1 ++ l2) = size l1 + size l2.
Proof. unfold size. rewrite length_app. lia. Qed.

Lemma size_nonneg {A} (l : list A) : 0 <= size l.
Proof. unfold size. lia. Qed.

(** The filtering loop always comes back; it appends to the list it was
    given, only URLs whose probe succeeded, and never goes past the count
    when it starts below it. *)
Lemma check_accessible_spec (n : Z) (urls acc : list string) (s : State) :
  exists evs new s',
    check_accessible w n urls acc s = (evs, Done (acc ++ new) s') /\
    fs s' = fs s /\ (clock s <= clock s')%nat /\
    only_probes evs /\
    Forall (passed_check w evs (clock s) (clock s')) new /\
    (size acc < size_t_of_int n -> size (acc ++ new) <= size_t_of_int n).
Proof.
  revert acc s. induction urls as [|url rest IH]; intros acc s.
  - exists [], [], s. rewrite app_nil_r. cbn.
    split_and!; [reflexivity | reflexivity | lia | constructor | constructor | lia].
  - cbn [check_accessible].
    destruct (isAccessible_spec w url s)
      as (e1 & ok & s1 & Hrun & Hfs & Hclk & Hev & Hok).
    rewrite (bind_done _ _ _ _ _ _ Hrun).
    assert (Hev1 : only_probes e1).
    { eapply List.Forall_impl; [|exact Hev]. intros e (r & c & ->). eauto. }
    clear Hev.
    assert (Hlift : forall e2 s2 u, (clock s1 <= clock s2)%nat ->
              passed_check w e2 (clock s1) (clock s2) u ->
              passed_check w (e1 ++ e2) (clock s) (clock s2) u).
    { intros e2 s2 u Hle Hu.
      pose proof (passed_check_mono _ e1 [] _ _ (clock s) (clock s2) _ Hu) as Hm.
      rewrite app_nil_r in Hm. apply Hm; lia. }
    destruct ok.
    + specialize (Hok eq_refl).
      destruct (size (acc ++ [url]) =? size_t_of_int n) eqn:Hsz.
      * exists e1, [url], s1. cbn [fst snd]. rewrite app_nil_r.
        split_and!; [reflexivity | assumption | lia | assumption | |].
        -- constructor; [exact Hok | constructor].
        -- intros _. apply Z.eqb_eq in Hsz. lia.
      * destruct (IH (acc ++ [url]) s1)
          as (e2 & new & s2 & Hrun2 & Hfs2 & Hclk2 & Hev2 & Hnew & Hbound).
        rewrite Hrun2. cbn [fst snd].
        exists (e1 ++ e2), (url :: new), s2.
        rewrite <- app_assoc in *. cbn [app] in *.
        split_and!; [reflexivity | congruence | lia | | |].
        -- apply Forall_app; split; assumption.
        -- constructor.
           ++ pose proof (passed_check_mono _ [] e2 _ _ (clock s) (clock s2) _ Hok)
                as Hm.
              cbn [app] in Hm. apply Hm; lia.
           ++ eapply List.Forall_impl; [|exact Hnew]. intros u Hu.
              now apply Hlift.
        -- intros Hlt. apply Hbound. apply Z.eqb_neq in Hsz.
           rewrite size_app in *. unfold size in *. cbn [List.length] in *. lia.
    + destruct (IH acc s1)
        as (e2 & new & s2 & Hrun2 & Hfs2 & Hclk2 & Hev2 & Hnew & Hbound).
      rewrite Hrun2. cbn [fst snd].
      exists (e1 ++ e2), new, s2.
      split_and!; [reflexivity | congruence | lia | | | assumption].
      * apply Forall_app; split; assumption.
      * eapply List.Forall_impl; [|exact Hnew]. intros u Hu. now apply Hlift.
Qed.

End FilterFacts.

(** ** Events and termination, compositionally *)

Lemma emits_only_bind {A B} P (m : M A) (k : A -> M B) :
  emits_only P m -> (forall a, emits_only P (k a)) -> emits_only P (bind m k).
Proof.
  intros Hm Hk s. specialize (Hm s). unfold events, bind in *.
  destruct (m s) as [e1 [a s1|c s1|]]; cbn [fst] in *; auto.
  specialize (Hk a s1). unfold events in Hk.
  destruct (k a s1) as [e2 r]; cbn [fst] in *.
  apply Forall_app; split; assumption.
Qed.

Lemma emits_only_silent {A} P (m : M A) :
  (forall s, events (m s) = []) -> emits_only P m.
Proof. intros H s. rewrite H. constructor. Qed.

Lemma emits_only_emit P e : P e -> emits_only P (emit e).
Proof. intros H s. cbn. now constructor. Qed.

Lemma returns_bind {A B} (m : M A) (k : A -> M B) :
  returns m -> (forall a, returns (k a)) -> returns (bind m k).
Proof.
  intros Hm Hk s. destruct (Hm s) as (e1 & a & s1 & Hrun & Hfs & Hclk).
  destruct (Hk a s1) as (e2 & b & s2 & Hrun2 & Hfs2 & Hclk2).
  exists (e1 ++ e2), b, s2. rewrite (bind_done _ _ _ _ _ _ Hrun), Hrun2.
  split_and!; [reflexivity | congruence | lia].
Qed.

Lemma returns_ret {A} (a : A) : returns (ret a).
Proof. intros s. now exists [], a, s. Qed.

Lemma returns_tick : returns tick.
Proof.
  intros s. eexists _, _, _. split; [reflexivity|]. cbn. split; [reflexivity | lia].
Qed.

Lemma returns_emit e : returns (emit e).
Proof. intros s. now exists [e], tt, s. Qed.

Lemma returns_read_file path : returns (read_file path).
Proof. intros s. now exists [], (fs s !! path), s. Qed.

(** One step of a compositional argument about events or termination. *)
Ltac step :=
  first
    [ apply emits_only_bind; [|intros ?]
    | apply returns_bind; [|intros ?]
    | apply returns_ret | apply returns_tick | apply returns_emit
    | apply returns_read_file
    | apply emits_only_silent; intros ?; reflexivity
    | apply emits_only_emit; cbn; solve [auto]
    | match goal with
      | |- emits_only _ (if ?b then _ else _) => destruct b
      | |- emits_only _ (match ?x with _ => _ end) => destruct x
      | |- emits_only _ (let '(_, _) := ?x in _) => destruct x
      | |- returns (if ?b then _ else _) => destruct b
      | |- returns (match ?x with _ => _ end) => destruct x
      | |- returns (let '(_, _) := ?x in _) => destruct x
      end ].

Section GeminiFacts.

Context (w : World) (tx : Texts).

Lemma returns_isAccessible url : returns (isAccessible w url).
Proof. unfold isAccessible. repeat step. Qed.

Lemma returns_postToGemini apiKey prompt : returns (postToGemini w apiKey prompt).
Proof. unfold postToGemini, cerr. repeat step. Qed.

Lemma returns_extractTextFromGemini response :
  returns (extractTextFromGemini w tx response).
Proof. unfold extractTextFromGemini, cerr. repeat step. Qed.

Lemma returns_makeDir dir : returns (makeDir w dir).
Proof. unfold makeDir. repeat step. Qed.

Lemma emits_postToGemini apiKey prompt :
  emits_only (keyed_with apiKey) (postToGemini w apiKey prompt).
Proof. unfold postToGemini, cerr. repeat step. Qed.

Lemma emits_extractTextFromGemini P response :
  (forall msg, P (EvStderr msg)) ->
  emits_only P (extractTextFromGemini w tx response).
Proof. intros H. unfold extractTextFromGemini, cerr. repeat step. Qed.

Lemma emits_isAccessible P url :
  (forall r c, P (EvHead url r c)) -> emits_only P (isAccessible w url).
Proof. intros H. unfold isAccessible. repeat step. Qed.

Lemma emits_check_accessible P n urls acc :
  (forall u r c, P (EvHead u r c)) ->
  emits_only P (check_accessible w n urls acc).
Proof.
  intros H. revert acc. induction urls as [|url rest IH]; intros acc;
    cbn [check_accessible].
  - repeat step.
  - step; [now apply emits_isAccessible|]. repeat step; apply IH.
Qed.

Lemma emits_makeDir P dir : P (EvMkdir dir) -> emits_only P (makeDir w dir).
Proof. intros H. unfold makeDir. repeat step. Qed.

End GeminiFacts.

Lemma bind_returns {A B} (m : M A) (k : A -> M B) (s : State) :
  returns m ->
  exists e1 a s1,
    m s = (e1, Done a s1) /\ fs s1 = fs s /\ (clock s <= clock s1)%nat /\
    bind m k s = (e1 ++ fst (k a s1), snd (k a s1)).
Proof.
  intros H. destruct (H s) as (e1 & a & s1 & Hrun & Hfs & Hclk).
  exists e1, a, s1. split_and!; auto. now apply bind_done.
Qed.

(** ** The harvester of the looping variants *)

Section LoopingHarvest.

Context (w : World) (tx : Texts) (apiKey : string) (numimages : Z).

(** One cycle always comes back, keeps what was accepted before and adds
    only URLs whose probe succeeded during the cycle. *)
Lemma cycle_spec (image_urls : list string) (s : State) :
  exists evs new s',
    Looping.cycle w tx apiKey numimages image_urls s
      = (evs, Done (image_urls ++ new) s') /\
    fs s' = fs s /\ (clock s <= clock s')%nat /\
    Forall (passed_check w evs (clock s) (clock s')) new /\
    (size image_urls < size_t_of_int numimages ->
     size (image_urls ++ new) <= size_t_of_int numimages).
Proof.
  unfold Looping.cycle.
  destruct (bind_returns _
    (fun generationResponse =>
       genText <- extractTextFromGemini w tx generationResponse ;;
       extractionResponse <-
         postToGemini w apiKey (Looping.extractionPrompt genText) ;;
       urlsText <- extractTextFromGemini w tx extractionResponse ;;
       check_accessible w numimages (candidate_lines urlsText) image_urls)%prog
    s (returns_postToGemini w apiKey (Looping.generationPrompt numimages)))
    as (e1 & r1 & s1 & _ & Hfs1 & Hclk1 & ->).
  destruct (bind_returns _
    (fun genText =>
       extractionResponse <-
         postToGemini w apiKey (Looping.extractionPrompt genText) ;;
       urlsText <- extractTextFromGemini w tx extractionResponse ;;
       check_accessible w numimages (candidate_lines urlsText) image_urls)%prog
    s1 (returns_extractTextFromGemini w tx r1))
    as (e2 & genText & s2 & _ & Hfs2 & Hclk2 & ->).
  destruct (bind_returns _
    (fun extractionResponse =>
       urlsText <- extractTextFromGemini w tx extractionResponse ;;
       check_accessible w numimages (candidate_lines urlsText) image_urls)%prog
    s2 (returns_postToGemini w apiKey (Looping.extractionPrompt genText)))
    as (e3 & r3 & s3 & _ & Hfs3 & Hclk3 & ->).
  destruct (bind_returns _
    (fun urlsText =>
       check_accessible w numimages (candidate_lines urlsText) image_urls)
    s3 (returns_extractTextFromGemini w tx r3))
    as (e4 & urlsText & s4 & _ & Hfs4 & Hclk4 & ->).
  destruct (check_accessible_spec w numimages (candidate_lines urlsText)
              image_urls s4)
    as (e5 & new & s5 & -> & Hfs5 & Hclk5 & _ & Hnew & Hbound).
  cbn [fst snd].
  exists (e1 ++ e2 ++ e3 ++ e4 ++ e5), new, s5.
  split_and!; [reflexivity | congruence | lia | | assumption].
  eapply List.Forall_impl; [|exact Hnew]. intros u Hu.
  pose proof (passed_check_mono w _ (e1 ++ e2 ++ e3 ++ e4) []
                _ _ (clock s) (clock s5) _ Hu) as Hm.
  rewrite app_nil_r, <- !app_assoc in Hm. apply Hm; lia.
Qed.

(** When the loop hands back a list, the list is no longer short of the
    count, extends the list the loop started from, and what it added passed
    the liveness check during the run. *)
Lemma loop_spec (fuel : nat) (image_urls : list string) (s : State)
  evs urls s' :
  Looping.generateImageUrls_from w tx fuel apiKey numimages image_urls s
    = (evs, Done urls s') ->
  exists new,
    urls = image_urls ++ new /\
    (clock s <= clock s')%nat /\
    Forall (passed_check w evs (clock s) (clock s')) new /\
    ~ size urls < size_t_of_int numimages /\
    (size image_urls <= size_t_of_int numimages ->
     size urls <= size_t_of_int numimages).
Proof.
  revert image_urls s evs.
  induction fuel as [|fuel IH]; intros acc s evs;
    cbn [Looping.generateImageUrls_from];
    destruct (size acc <? size_t_of_int numimages) eqn:Hguard;
    try discriminate.
  1, 3: intros H; injection H as <- <- <-; exists [];
    apply Z.ltb_ge in Hguard; rewrite app_nil_r;
    split_and!; [reflexivity | lia | constructor | lia | lia].
  apply Z.ltb_lt in Hguard.
  destruct (cycle_spec acc s)
    as (e1 & new1 & s1 & Hc & Hfs1 & Hclk1 & Hnew1 & Hb1).
  rewrite (bind_done _ _ _ _ _ _ Hc).
  destruct (Looping.generateImageUrls_from w tx fuel apiKey numimages
              (acc ++ new1) s1) as [e2 r2] eqn:Hloop.
  cbn [fst snd]. intros H. injection H as <- ->.
  destruct (IH _ _ _ Hloop) as (new2 & -> & Hclk2 & Hnew2 & Hstop & Hb2).
  exists (new1 ++ new2). rewrite <- app_assoc in *.
  split_and!; [reflexivity | lia | | assumption | intros _; apply Hb2; auto].
  apply Forall_app; split.
  - eapply List.Forall_impl; [|exact Hnew1]. intros u Hu.
    pose proof (passed_check_mono w _ [] e2 _ _ (clock s) (clock s') _ Hu) as Hm.
    cbn [app] in Hm. apply Hm; lia.
  - eapply List.Forall_impl; [|exact Hnew2]. intros u Hu.
    pose proof (passed_check_mono w _ e1 [] _ _ (clock s) (clock s') _ Hu) as Hm.
    rewrite app_nil_r in Hm. apply Hm; lia.
Qed.

End LoopingHarvest.

Section LoopingPolicy.

Context (w : World) (tx : Texts) (apiKey : string) (numimages : Z).

(** The loop hands back a list exactly when some number of cycles, run one
    after the other, first brings the list up to the count. *)
Lemma loop_iff (fuel : nat) (image_urls : list string) (s : State)
  evs urls s' :
  Looping.generateImageUrls_from w tx fuel apiKey numimages image_urls s
    = (evs, Done urls s') <->
  exists k,
    (k <= fuel)%nat /\
    cycles w tx k apiKey numimages image_urls s = (evs, Done urls s') /\
    ~ size urls < size_t_of_int numimages /\
    (forall j ej uj sj, (j < k)%nat ->
       cycles w tx j apiKey numimages image_urls s = (ej, Done uj sj) ->
       size uj < size_t_of_int numimages).
Proof.
  split.
  - revert image_urls s evs.
    induction fuel as [|fuel IH]; intros acc s evs;
      cbn [Looping.generateImageUrls_from];
      destruct (size acc <? size_t_of_int numimages) eqn:Hguard;
      try discriminate.
    1, 3: intros H; injection H as <- <- <-; exists 0%nat;
      apply Z.ltb_ge in Hguard;
      split_and!; [lia | reflexivity | lia | intros; lia].
    apply Z.ltb_lt in Hguard. intros H.
    apply bind_done_inv in H as (e1 & a & s1 & e2 & Hc & Hloop & ->).
    apply IH in Hloop as (k & Hle & Hcyc & Hstop & Hshort).
    exists (S k). cbn [cycles]. rewrite (bind_done _ _ _ _ _ _ Hc), Hcyc.
    split_and!; [lia | reflexivity | assumption |].
    intros [|j] ej uj sj Hj Hrun.
    + cbn in Hrun. injection Hrun as _ <- _. exact Hguard.
    + cbn [cycles] in Hrun.
      apply bind_done_inv in Hrun as (e1' & a' & s1' & e2' & Hc' & Hrun & _).
      rewrite Hc in Hc'. injection Hc' as _ <- <-.
      eapply Hshort; [|exact Hrun]. lia.
  - revert image_urls s evs.
    induction fuel as [|fuel IH]; intros acc s evs (k & Hle & Hcyc & Hstop & Hshort);
      cbn [Looping.generateImageUrls_from]; destruct k as [|k]; try lia.
    1, 2: cbn in Hcyc; injection Hcyc as <- <- <-;
      destruct (size acc <? size_t_of_int numimages) eqn:Hguard;
      [apply Z.ltb_lt in Hguard; contradiction | reflexivity].
    assert (Hguard : size acc < size_t_of_int numimages).
    { apply (Hshort 0%nat [] acc s); [lia | reflexivity]. }
    apply Z.ltb_lt in Hguard. rewrite Hguard.
    cbn [cycles] in Hcyc.
    apply bind_done_inv in Hcyc as (e1 & a & s1 & e2 & Hc & Hcyc & ->).
    rewrite (bind_done _ _ _ _ _ _ Hc).
    rewrite (IH a s1 e2); [reflexivity|].
    exists k. split_and!; [lia | assumption | assumption |].
    intros j ej uj sj Hj Hrun.
    apply (Hshort (S j) (e1 ++ ej) uj sj); [lia|].
    cbn [cycles]. now rewrite (bind_done _ _ _ _ _ _ Hc), Hrun.
Qed.

End LoopingPolicy.

Lemma size_t_of_count (n : Z) : 0 <= n <= INT_MAX -> size_t_of_int n = n.
Proof.
  unfold INT_MAX, size_t_of_int. intros H. apply Z.mod_small. lia.
Qed.

Lemma size_t_of_negative (n : Z) :
  INT_MIN <= n < 0 -> size_t_of_int n = 2 ^ 64 + n.
Proof.
  unfold INT_MIN, size_t_of_int. intros H.
  symmetry. apply (Z.mod_unique n (2 ^ 64) (-1) (2 ^ 64 + n)); lia.
Qed.

(** Where no probe ever succeeds a cycle adds nothing, and the loop, asked
    for at least one image, is still running whatever the number of rounds
    it is given. *)
Lemma starved_loop_diverges (w : World) (tx : Texts) (fuel : nat)
  (apiKey : string) (n : Z) (image_urls : list string) (s : State) :
  never_alive w ->
  size image_urls < size_t_of_int n ->
  outcome (Looping.generateImageUrls_from w tx fuel apiKey n image_urls s)
  = Diverged.
Proof.
  intros Hdead Hshort. revert s.
  induction fuel as [|fuel IH]; intros s; cbn [Looping.generateImageUrls_from];
    apply Z.ltb_lt in Hshort as Hguard; rewrite Hguard; [reflexivity|].
  destruct (cycle_spec w tx apiKey n image_urls s)
    as (evs & new & s1 & Hc & _ & _ & Hnew & _).
  destruct new as [|u new].
  - rewrite app_nil_r in Hc. rewrite (bind_done _ _ _ _ _ _ Hc).
    cbn [outcome snd]. apply IH.
  - apply List.Forall_inv in Hnew as [_ (t & _ & Hinit & Hprobe)].
    now destruct (Hdead t u Hinit).
Qed.

(** The loop of the looping variants hands back a list exactly when
    some number [k] of whole generate, extract and filter cycles, run one
    after the other from the empty list, has brought the accepted total to
    the requested count, every shorter run leaving it short: it repeats while
    short and stops only at the count, and [k] has no bound of the program's
    own.  A cycle keeps what was accepted before it and appends to it.
    Nothing is deduplicated: a URL offered and alive in two cycles is
    accepted twice.  And where no probe ever succeeds the loop, asked for at
    least one image, does not come back however many rounds it is given. *)
Lemma retry_policy :
  (forall w tx fuel apiKey numimages s evs urls s',
     0 <= numimages <= INT_MAX ->
     Looping.generateImageUrls w tx fuel apiKey numimages s
       = (evs, Done urls s') <->
     exists k,
       (k <= fuel)%nat /\
       cycles w tx k apiKey numimages [] s = (evs, Done urls s') /\
       size urls = numimages /\
       (forall j ej uj sj, (j < k)%nat ->
          cycles w tx j apiKey numimages [] s = (ej, Done uj sj) ->
          size uj < numimages)) /\
  (forall w tx apiKey numimages image_urls s,
     exists evs new s',
       Looping.cycle w tx apiKey numimages image_urls s
         = (evs, Done (image_urls ++ new) s')) /\
  (exists evs s',
     Looping.generateImageUrls always_a Looping.texts_000 2 "K" 2 boot
     = (evs, Done ["http://a/1.jpg"; "http://a/1.jpg"] s')) /\
  (forall w tx fuel apiKey numimages s,
     0 < numimages <= INT_MAX ->
     never_alive w ->
     outcome (Looping.generateImageUrls w tx fuel apiKey numimages s)
     = Diverged).
Proof.
  split_and!; cycle 3.
  - intros w tx fuel apiKey n s Hn Hdead.
    apply starved_loop_diverges; [exact Hdead|].
    rewrite size_t_of_count by lia. unfold size. cbn. lia.
  - intros w tx fuel apiKey n s evs urls s' Hn.
    unfold Looping.generateImageUrls. rewrite loop_iff.
    rewrite (size_t_of_count n Hn).
    split; intros (k & Hle & Hcyc & Hstop & Hshort); exists k;
      (split_and!; [assumption | assumption | | assumption]); [|lia].
    assert (Hloop : Looping.generateImageUrls_from w tx fuel apiKey n [] s
                    = (evs, Done urls s')).
    { apply loop_iff. exists k. rewrite (size_t_of_count n Hn). auto. }
    apply loop_spec in Hloop as (new & _ & _ & _ & _ & Hb).
    rewrite (size_t_of_count n Hn) in Hb.
    unfold size in *. cbn [List.length] in Hb. lia.
  - intros w tx apiKey n acc s.
    destruct (cycle_spec w tx apiKey n acc s) as (evs & new & s' & H & _).
    eauto.
  - eexists _, _. vm_compute. reflexivity.
Qed.

Lemma retry_policy_witness :
  exists k,
    (k <= 2)%nat /\
    cycles always_a Looping.texts_000 k "K" 2 [] boot
      = (events (Looping.generateImageUrls always_a Looping.texts_000 2 "K" 2
                   boot),
         Done ["http://a/1.jpg"; "http://a/1.jpg"] (mkState 12 ∅)) /\
    size ["http://a/1.jpg"; "http://a/1.jpg"] = 2 /\
    (forall j ej uj sj, (j < k)%nat ->
       cycles always_a Looping.texts_000 j "K" 2 [] boot = (ej, Done uj sj) ->
       size uj < 2).
Proof.
  assert (Hn : 0 <= 2 <= INT_MAX) by (unfold INT_MAX; lia).
  apply (proj1 (proj1 retry_policy always_a Looping.texts_000 2%nat "K" 2 boot
                  _ _ _ Hn)).
  vm_compute. reflexivity.
Defined.

(** ** The harvester of the single-pass variant *)

Section SinglePassHarvest.

Context (w : World) (apiKey : string) (numImages : Z).

(** The single pass always comes back; what it returns passed the liveness
    check during the run, and stays within a count that is not zero. *)
Lemma single_pass_spec (s : State) :
  exists evs urls s',
    SinglePass.generateImageUrls w apiKey numImages s = (evs, Done urls s') /\
    Forall (passed_check w evs (clock s) (clock s')) urls /\
    (0 < size_t_of_int numImages -> size urls <= size_t_of_int numImages).
Proof.
  unfold SinglePass.generateImageUrls.
  destruct (bind_returns _
    (fun generationResponse =>
       genText <- extractTextFromGemini w SinglePass.texts generationResponse ;;
       if String.eqb genText "" then
         cerr "Gemini generation returned empty text." ;;; ret []
       else
         extractionResponse <-
           postToGemini w apiKey (SinglePass.extractionPrompt genText) ;;
         urlsText <-
           extractTextFromGemini w SinglePass.texts extractionResponse ;;
         if String.eqb urlsText "" then
           cerr "Gemini extraction returned empty text." ;;; ret []
         else check_accessible w numImages (candidate_lines urlsText) [])%prog
    s (returns_postToGemini w apiKey (SinglePass.generationPrompt numImages)))
    as (e1 & r1 & s1 & _ & Hfs1 & Hclk1 & ->).
  destruct (bind_returns _
    (fun genText =>
       if String.eqb genText "" then
         cerr "Gemini generation returned empty text." ;;; ret []
       else
         extractionResponse <-
           postToGemini w apiKey (SinglePass.extractionPrompt genText) ;;
         urlsText <-
           extractTextFromGemini w SinglePass.texts extractionResponse ;;
         if String.eqb urlsText "" then
           cerr "Gemini extraction returned empty text." ;;; ret []
         else check_accessible w numImages (candidate_lines urlsText) [])%prog
    s1 (returns_extractTextFromGemini w SinglePass.texts r1))
    as (e2 & genText & s2 & _ & Hfs2 & Hclk2 & ->).
  destruct (String.eqb genText "").
  { eexists _, [], _. split; [reflexivity|]. split; [constructor|].
    intros. unfold size. cbn. lia. }
  destruct (bind_returns _
    (fun extractionResponse =>
       urlsText <-
         extractTextFromGemini w SinglePass.texts extractionResponse ;;
       if String.eqb urlsText "" then
         cerr "Gemini extraction returned empty text." ;;; ret []
       else check_accessible w numImages (candidate_lines urlsText) [])%prog
    s2 (returns_postToGemini w apiKey (SinglePass.extractionPrompt genText)))
    as (e3 & r3 & s3 & _ & Hfs3 & Hclk3 & ->).
  destruct (bind_returns _
    (fun urlsText =>
       if String.eqb urlsText "" then
         cerr "Gemini extraction returned empty text." ;;; ret []
       else check_accessible w numImages (candidate_lines urlsText) [])%prog
    s3 (returns_extractTextFromGemini w SinglePass.texts r3))
    as (e4 & urlsText & s4 & _ & Hfs4 & Hclk4 & ->).
  destruct (String.eqb urlsText "").
  { eexists _, [], _. split; [reflexivity|]. split; [constructor|].
    intros. unfold size. cbn. lia. }
  destruct (check_accessible_spec w numImages (candidate_lines urlsText) [] s4)
    as (e5 & new & s5 & -> & Hfs5 & Hclk5 & _ & Hnew & Hbound).
  cbn [fst snd app] in *.
  exists (e1 ++ e2 ++ e3 ++ e4 ++ e5), new, s5.
  split_and!; [reflexivity | | exact Hbound].
  eapply List.Forall_impl; [|exact Hnew]. intros u Hu.
  pose proof (passed_check_mono w _ (e1 ++ e2 ++ e3 ++ e4) []
                _ _ (clock s) (clock s5) _ Hu) as Hm.
  rewrite app_nil_r, <- !app_assoc in Hm. apply Hm; lia.
Qed.

(** Where the filtering loop and its version without [break] part ways, the
    list has reached the converted count. *)
Lemma check_accessible_or_full (urls acc : list string) (s : State) :
  check_accessible w numImages urls acc s = check_all w urls acc s \/
  exists evs res s',
    check_accessible w numImages urls acc s = (evs, Done res s') /\
    size res = size_t_of_int numImages.
Proof.
  revert acc s. induction urls as [|url rest IH]; intros acc s;
    cbn [check_accessible check_all]; [now left|].
  destruct (isAccessible_spec w url s) as (e1 & ok & s1 & Hrun & _).
  rewrite !(bind_done _ _ _ _ _ _ Hrun).
  destruct ok.
  - destruct (size (acc ++ [url]) =? size_t_of_int numImages) eqn:Hsz.
    + right. apply Z.eqb_eq in Hsz. cbn. eauto.
    + destruct (IH (acc ++ [url]) s1) as [->|(e2 & res & s2 & -> & Hfull)];
        [now left | right; cbn; eauto].
  - destruct (IH acc s1) as [->|(e2 & res & s2 & -> & Hfull)];
      [now left | right; cbn; eauto].
Qed.

(** Below the converted count the [break] cannot fire. *)
Lemma check_accessible_no_break (urls acc : list string) (s : State) :
  size acc + size urls < size_t_of_int numImages ->
  check_accessible w numImages urls acc s = check_all w urls acc s.
Proof.
  revert acc s. induction urls as [|url rest IH]; intros acc s Hlt;
    cbn [check_accessible check_all]; [reflexivity|].
  assert (Hsz : size (url :: rest) = 1 + size rest)
    by (unfold size; cbn [List.length]; lia).
  pose proof (size_nonneg rest).
  destruct (isAccessible_spec w url s) as (e1 & ok & s1 & Hrun & _).
  rewrite !(bind_done _ _ _ _ _ _ Hrun).
  destruct ok.
  - assert (Hacc : size (acc ++ [url]) = size acc + 1)
      by (rewrite size_app; unfold size; cbn [List.length]; lia).
    destruct (size (acc ++ [url]) =? size_t_of_int numImages) eqn:E.
    + apply Z.eqb_eq in E. lia.
    + rewrite IH by lia. reflexivity.
  - rewrite IH by lia. reflexivity.
Qed.

Lemma single_pass_or_full (s : State) :
  SinglePass.generateImageUrls w apiKey numImages s
    = harvest_every_live w apiKey numImages s \/
  exists evs res s',
    SinglePass.generateImageUrls w apiKey numImages s = (evs, Done res s') /\
    size res = size_t_of_int numImages.
Proof.
  unfold SinglePass.generateImageUrls, harvest_every_live, bind.
  destruct (postToGemini w apiKey (SinglePass.generationPrompt numImages) s)
    as [e1 [r1 s1| |]]; [|now left..].
  destruct (extractTextFromGemini w SinglePass.texts r1 s1)
    as [e2 [genText s2| |]]; [|now left..].
  destruct (String.eqb genText ""); [now left|].
  destruct (postToGemini w apiKey (SinglePass.extractionPrompt genText) s2)
    as [e3 [r3 s3| |]]; [|now left..].
  destruct (extractTextFromGemini w SinglePass.texts r3 s3)
    as [e4 [urlsText s4| |]]; [|now left..].
  destruct (String.eqb urlsText ""); [now left|].
  destruct (check_accessible_or_full (candidate_lines urlsText) [] s4)
    as [->|(e5 & res & s5 & -> & Hfull)]; [now left|].
  right. eauto.
Qed.

End SinglePassHarvest.

(** Within their range of use both harvesters keep to the count: the looping
    one for every count from zero, the single pass for every count from
    one; and what they return passed the liveness check during the run. *)
Lemma harvest_within_count (w : World) (tx : Texts) (apiKey : string)
  (n : Z) (s : State) :
  (forall fuel evs urls s',
     0 <= n <= INT_MAX ->
     Looping.generateImageUrls w tx fuel apiKey n s = (evs, Done urls s') ->
     size urls <= n /\
     Forall (passed_check w evs (clock s) (clock s')) urls) /\
  (forall evs urls s',
     1 <= n <= INT_MAX ->
     SinglePass.generateImageUrls w apiKey n s = (evs, Done urls s') ->
     size urls <= n /\
     Forall (passed_check w evs (clock s) (clock s')) urls).
Proof.
  split.
  - intros fuel evs urls s' Hn Hrun.
    apply loop_spec in Hrun as (new & -> & _ & Hnew & _ & Hb).
    rewrite size_t_of_count in Hb by lia. cbn [app] in *.
    split; [apply Hb; unfold size; cbn; lia | exact Hnew].
  - intros evs urls s' Hn Hrun.
    destruct (single_pass_spec w apiKey n s) as (evs' & urls' & s'' & Hrun' & Hp & Hb).
    rewrite Hrun in Hrun'. injection Hrun' as <- <- <-.
    rewrite size_t_of_count in Hb by lia.
    split; [apply Hb; lia | exact Hp].
Qed.

(** The function of src/imageprocessing.cpp at the count 0, a count no run
    hands to it ([main] calls it with 2 and nothing else): the list is
    compared with the count only after a URL has been pushed, so the
    comparison with 0 never holds and every live candidate is returned. *)
Example single_pass_count_zero_overshoots :
  exists evs s',
    SinglePass.generateImageUrls two_alive "K" 0 boot
      = (evs, Done ["http://a/1.jpg"; "http://c/3.png"] s') /\
    In (EvHead "http://b/2.jpg" CURLE_OK 404) evs /\
    ~ size ["http://a/1.jpg"; "http://c/3.png"] <= 0.
Proof.
  eexists _, _. split_and!.
  - vm_compute. reflexivity.
  - cbn. do 3 right. left. reflexivity.
  - vm_compute. intros H. now apply H.
Qed.

(** C9: a negative count becomes, as a [size_t], the count plus 2^64, at
    least 2^64 - 2^31.  In the single pass the [break] cannot fire on fewer
    candidates than that: the loop is the loop without [break], and the
    function returns what the harvester without a stop returns, every live
    candidate, unless the list has reached that size.  In the looping
    variants the loop hands back a list only of at least that size. *)
Theorem negative_count_never_stops (w : World) (tx : Texts)
  (apiKey : string) (numImages : Z) (s : State) :
  INT_MIN <= numImages < 0 ->
  size_t_of_int numImages = 2 ^ 64 + numImages /\
  2 ^ 64 - 2 ^ 31 <= size_t_of_int numImages /\
  (forall urls,
     size urls < 2 ^ 64 + numImages ->
     check_accessible w numImages urls [] s = check_all w urls [] s) /\
  (exists evs urls s',
     SinglePass.generateImageUrls w apiKey numImages s
       = (evs, Done urls s') /\
     (harvest_every_live w apiKey numImages s = (evs, Done urls s') \/
      size urls = 2 ^ 64 + numImages)) /\
  (forall fuel evs urls s',
     Looping.generateImageUrls w tx fuel apiKey numImages s
       = (evs, Done urls s') ->
     2 ^ 64 + numImages <= size urls).
Proof.
  intros Hn. pose proof (size_t_of_negative numImages Hn) as Hsz.
  split_and!.
  - exact Hsz.
  - rewrite Hsz. unfold INT_MIN in Hn. lia.
  - intros urls Hlt. apply check_accessible_no_break.
    rewrite Hsz. unfold size in *. cbn [List.length]. lia.
  - destruct (single_pass_spec w apiKey numImages s)
      as (evs & urls & s' & Hrun & _).
    exists evs, urls, s'. split; [exact Hrun|].
    destruct (single_pass_or_full w apiKey numImages s)
      as [H|(evs' & res & s'' & Hrun' & Hfull)].
    + left. now rewrite <- H.
    + right. rewrite Hrun in Hrun'. injection Hrun' as <- <- <-.
      now rewrite <- Hsz.
  - intros fuel evs urls s' Hrun.
    apply loop_spec in Hrun as (new & _ & _ & _ & Hstop & _).
    rewrite Hsz in Hstop. lia.
Qed.

(** At the count -1 the single pass returns both live candidates. *)
Lemma negative_count_never_stops_witness :
  INT_MIN <= -1 < 0 /\
  exists evs urls s',
    SinglePass.generateImageUrls two_alive "K" (-1) boot
      = (evs, Done urls s') /\
    (harvest_every_live two_alive "K" (-1) boot = (evs, Done urls s') \/
     size urls = 2 ^ 64 + -1).
Proof.
  assert (H : INT_MIN <= -1 < 0) by (unfold INT_MIN; lia).
  split; [exact H|].
  exact (proj1 (proj2 (proj2 (proj2
    (negative_count_never_stops two_alive SinglePass.texts "K" (-1) boot H))))).
Defined.

(** ** The credential *)

Lemma read_line_until_newline (key rest : string) :
  has_char "010" key = false ->
  Str.read_line (key +:+ String "010" rest) = (key, rest).
Proof.
  induction key as [|c key IH]; intros H; [reflexivity|].
  cbn [has_char] in H. apply orb_false_iff in H as [Hc Hk].
  rewrite append_cons. cbn [Str.read_line]. rewrite Hc, (IH Hk). reflexivity.
Qed.

Lemma read_key_first_line (key rest : string) :
  has_char "010" key = false ->
  read_key (key +:+ String "010" rest) = key.
Proof.
  intros H. unfold read_key, Str.getline.
  rewrite (read_line_until_newline key rest H).
  destruct key; reflexivity.
Qed.

Lemma emits_toGrayscale (w : World) (tx : Texts) P input output :
  (forall e, is_network e = false -> P e) ->
  emits_only P (toGrayscale w tx input output).
Proof.
  intros H. unfold toGrayscale, cerr.
  repeat first [step | apply emits_only_emit; apply H; reflexivity].
Qed.

Section KeyedRequests.

Context (w : World) (tx : Texts).

Lemma keyed_single_pass_generate apiKey n :
  emits_only (keyed_with apiKey) (SinglePass.generateImageUrls w apiKey n).
Proof.
  unfold SinglePass.generateImageUrls, cerr.
  repeat first
    [ apply emits_postToGemini
    | apply emits_extractTextFromGemini; intros; exact I
    | apply emits_check_accessible; intros; exact I
    | step ].
Qed.

Lemma keyed_single_pass_items apiKey urls i :
  emits_only (keyed_with apiKey) (SinglePass.process_items w urls i).
Proof.
  revert i. induction urls as [|url rest IH]; intros i;
    cbn [SinglePass.process_items]; [repeat step|].
  step; [|apply IH].
  unfold SinglePass.process_item, SinglePass.downloadImage, cout, cerr.
  repeat first [apply emits_toGrayscale; intros [] ?; easy | step].
Qed.

Lemma keyed_looping_generate apiKey fuel n acc :
  emits_only (keyed_with apiKey)
    (Looping.generateImageUrls_from w tx fuel apiKey n acc).
Proof.
  revert acc. induction fuel as [|fuel IH]; intros acc;
    cbn [Looping.generateImageUrls_from].
  - repeat step.
  - step; [|repeat step]. step; [|apply IH].
    unfold Looping.cycle.
    repeat first
      [ apply emits_postToGemini
      | apply emits_extractTextFromGemini; intros; exact I
      | apply emits_check_accessible; intros; exact I
      | step ].
Qed.

Lemma keyed_looping_items apiKey urls i :
  emits_only (keyed_with apiKey) (Looping.process_items w tx urls i).
Proof.
  revert i. induction urls as [|url rest IH]; intros i;
    cbn [Looping.process_items]; [repeat step|].
  step; [|apply IH].
  unfold Looping.process_item, Looping.downloadImage.
  repeat first [apply emits_toGrayscale; intros [] ?; easy | step].
Qed.

Lemma keyed_single_pass_main (s : State) (content : string) :
  fs s !! APIKEY_FILE = Some content ->
  Forall (keyed_with (read_key content)) (events (SinglePass.main w s)).
Proof.
  intros Hkey.
  assert (H : emits_only (keyed_with (read_key content))
                (makeDir w "images" ;;;
                 makeDir w "gs-images" ;;;
                 imageUrls <-
                   SinglePass.generateImageUrls w (read_key content) 2 ;;
                 SinglePass.process_items w imageUrls 0 ;;;
                 ret 0)%prog).
  { repeat first
      [ apply emits_makeDir; exact I
      | apply keyed_single_pass_generate
      | apply keyed_single_pass_items
      | step ]. }
  unfold SinglePass.main. rewrite bind_read_file.
  change "googleai.key" with APIKEY_FILE. rewrite Hkey. apply H.
Qed.

Lemma keyed_looping_main (fuel : nat) (argv : list string) (s : State)
  (content : string) :
  fs s !! APIKEY_FILE = Some content ->
  Forall (keyed_with (read_key content))
         (events (Looping.main w tx fuel argv s)).
Proof.
  intros Hkey.
  assert (H : emits_only (keyed_with (read_key content))
                (makeDir w IMAGES_DIR ;;;
                 makeDir w GSIMAGES_DIR ;;;
                 if size argv =? 2 then
                   imageUrls <-
                     Looping.generateImageUrls w tx fuel (read_key content)
                       (Libc.atoi (nth 1 argv "")) ;;
                   Looping.process_items w tx imageUrls 0 ;;;
                   ret 0
                 else
                   cerr "Error: the number of images to process is missing." ;;;
                   ret 1)%prog).
  { unfold cerr, Looping.generateImageUrls.
    repeat first
      [ apply emits_makeDir; exact I
      | apply keyed_looping_generate
      | apply keyed_looping_items
      | step ]. }
  unfold Looping.main. rewrite bind_read_file, Hkey. apply H.
Qed.

End KeyedRequests.

(** The key is the first line of the credential file without its newline,
    every other character of the line kept as it is; and a generation
    request, when one is made, is made with the endpoint string ending in
    [key=] followed by that key. *)
Lemma requests_carry_first_line (w : World) (tx : Texts) (fuel : nat)
  (argv : list string) (s : State) (key rest : string) :
  has_char "010" key = false ->
  fs s !! APIKEY_FILE = Some (key +:+ newline +:+ rest) ->
  read_key (key +:+ newline +:+ rest) = key /\
  (forall url body res,
     In (EvPost url body res) (events (SinglePass.main w s)) ->
     url = "https://generativelanguage.googleapis.com/v1beta/models/gemini-2.5-flash-lite:generateContent?key=" +:+ key) /\
  (forall url body res,
     In (EvPost url body res) (events (Looping.main w tx fuel argv s)) ->
     url = "https://generativelanguage.googleapis.com/v1beta/models/gemini-2.5-flash-lite:generateContent?key=" +:+ key).
Proof.
  intros Hnl Hfile.
  assert (Hkey : read_key (key +:+ newline +:+ rest) = key)
    by (apply (read_key_first_line key rest Hnl)).
  split; [exact Hkey|].
  pose proof (keyed_single_pass_main w s _ Hfile) as H1.
  pose proof (keyed_looping_main w tx fuel argv s _ Hfile) as H2.
  rewrite Hkey in H1, H2. rewrite List.Forall_forall in H1, H2.
  split; intros url body res Hin;
    [apply H1 in Hin | apply H2 in Hin]; exact Hin.
Qed.

Lemma requests_carry_first_line_witness :
  read_key ("ABC123" +:+ newline) = "ABC123" /\
  forall url body res,
    In (EvPost url body res) (events (SinglePass.main two_alive keyed_boot)) ->
    url = "https://generativelanguage.googleapis.com/v1beta/models/gemini-2.5-flash-lite:generateContent?key=ABC123".
Proof.
  pose proof (requests_carry_first_line two_alive SinglePass.texts 0 []
                keyed_boot "ABC123" "" eq_refl eq_refl) as H.
  exact (conj (proj1 H) (proj1 (proj2 H))).
Defined.

(** Blanks at the end of the credential line stay in the key. *)
Example credential_blanks_kept :
  read_key ("ABC123 " +:+ String "009" (String "013" newline))
  = "ABC123 " +:+ String "009" (String "013" "").
Proof. reflexivity. Qed.

(** C6: without the credential file every variant prints its message and
    returns 1 at once; the run emits nothing else, so no generation request,
    no liveness probe and no download is made, and nothing is changed. *)
Theorem missing_credential_exits (w : World) (tx : Texts) (fuel : nat)
  (argv : list string) (s : State) :
  fs s !! APIKEY_FILE = None ->
  SinglePass.main w s = ([EvStderr "Missing googleai.key"], Done 1 s) /\
  Looping.main w tx fuel argv s
    = ([EvStderr "API key file is missing"], Done 1 s) /\
  exit_status (outcome (SinglePass.main w s)) = Some 1 /\
  exit_status (outcome (Looping.main w tx fuel argv s)) = Some 1 /\
  List.filter is_network (events (SinglePass.main w s)) = [] /\
  List.filter is_network (events (Looping.main w tx fuel argv s)) = [].
Proof.
  intros Hnone.
  assert (H1 : SinglePass.main w s = ([EvStderr "Missing googleai.key"], Done 1 s)).
  { unfold SinglePass.main. rewrite bind_read_file.
    change "googleai.key" with APIKEY_FILE. now rewrite Hnone. }
  assert (H2 : Looping.main w tx fuel argv s
               = ([EvStderr "API key file is missing"], Done 1 s)).
  { unfold Looping.main. now rewrite bind_read_file, Hnone. }
  rewrite H1, H2. now split_and!.
Qed.

Lemma missing_credential_exits_witness :
  SinglePass.main two_alive boot
    = ([EvStderr "Missing googleai.key"], Done 1 boot) /\
  Looping.main two_alive Looping.texts_000 3 ["imageprocessing"; "2"] boot
    = ([EvStderr "API key file is missing"], Done 1 boot).
Proof.
  pose proof (missing_credential_exits two_alive Looping.texts_000 3
                ["imageprocessing"; "2"] boot eq_refl) as H.
  exact (conj (proj1 H) (proj1 (proj2 H))).
Defined.

(** ** The command line *)

Lemma digits_non_digit (s : string) :
  match s with
  | String c _ => negb (Libc.isdigit c)
  | EmptyString => true
  end = true ->
  Libc.digits s 0 = 0.
Proof.
  destruct s as [|c s]; [reflexivity|]. cbn [Libc.digits].
  now destruct (Libc.isdigit c).
Qed.

Lemma atoi_non_numeric (arg : string) :
  Libc.non_numeric arg = true -> Libc.atoi arg = 0.
Proof.
  unfold Libc.non_numeric, Libc.atoi, Libc.strtol. intros H.
  destruct (Libc.split_sign (Libc.skip_spaces arg)) as [minus ds].
  cbn [snd] in H. rewrite (digits_non_digit ds H).
  now destruct minus.
Qed.

Lemma makeDir_run (w : World) (dir : string) (s : State) :
  makeDir w dir s =
  (if stat_fails w (clock s) dir then [EvMkdir dir] else [],
   Done tt (mkState (S (clock s)) (fs s))).
Proof.
  unfold makeDir, bind, tick, emit, ret. cbn [clock fs].
  now destruct (stat_fails w (clock s) dir).
Qed.

(** With the credential file in place, a run without exactly one argument
    prints the usage message and returns 1, having made no network call; a
    run whose argument does not start with a number converts it to 0, asks
    the harvester for 0 images, makes no network call and returns 0. *)
Lemma argument_without_number (w : World) (tx : Texts) (fuel : nat)
  (argv : list string) (s : State) (content : string) :
  fs s !! APIKEY_FILE = Some content ->
  (size argv <> 2 ->
   exists evs s',
     Looping.main w tx fuel argv s
       = (evs ++ [EvStderr "Error: the number of images to process is missing."],
          Done 1 s') /\
     Forall offline evs) /\
  (forall prog arg,
     argv = [prog; arg] -> Libc.non_numeric arg = true ->
     Libc.atoi arg = 0 /\
     exists evs s',
       Looping.main w tx fuel argv s = (evs, Done 0 s') /\
       Forall offline evs).
Proof.
  intros Hkey.
  assert (Hdirs : forall d,
            Forall offline (if stat_fails w d IMAGES_DIR
                            then [EvMkdir IMAGES_DIR] else []) /\
            Forall offline (if stat_fails w d GSIMAGES_DIR
                            then [EvMkdir GSIMAGES_DIR] else [])).
  { intros d. split; [destruct (stat_fails w d IMAGES_DIR)
                     | destruct (stat_fails w d GSIMAGES_DIR)];
      repeat constructor. }
  split.
  - intros Hargc. apply Z.eqb_neq in Hargc.
    unfold Looping.main. rewrite bind_read_file, Hkey.
    rewrite (bind_done _ _ _ _ _ _ (makeDir_run w IMAGES_DIR s)).
    rewrite (bind_done _ _ _ _ _ _ (makeDir_run w GSIMAGES_DIR _)).
    rewrite Hargc. cbn [fst snd clock fs cerr emit ret bind app].
    eexists (_ ++ _), _. rewrite <- app_assoc. split; [reflexivity|].
    apply Forall_app; split; apply Hdirs.
  - intros prog arg -> Hnn.
    pose proof (atoi_non_numeric arg Hnn) as Hzero. split; [exact Hzero|].
    unfold Looping.main. rewrite bind_read_file, Hkey.
    rewrite (bind_done _ _ _ _ _ _ (makeDir_run w IMAGES_DIR s)).
    rewrite (bind_done _ _ _ _ _ _ (makeDir_run w GSIMAGES_DIR _)).
    cbn [size List.length nth]. change (Z.of_nat 2 =? 2) with true.
    rewrite Hzero. unfold Looping.generateImageUrls.
    destruct fuel; cbn [Looping.generateImageUrls_from];
      change (size [] <? size_t_of_int 0) with false;
      cbn [fst snd clock fs ret bind app Looping.process_items];
      (eexists (_ ++ _ ++ []), _; split; [reflexivity|]);
      rewrite app_nil_r; apply Forall_app; split; apply Hdirs.
Qed.

Lemma argument_without_number_witness :
  Libc.atoi "abc" = 0 /\
  exists evs s',
    Looping.main two_alive Looping.texts_000 0 ["imageprocessing"; "abc"]
      keyed_boot = (evs, Done 0 s') /\
    Forall offline evs.
Proof.
  exact (proj2 (argument_without_number two_alive Looping.texts_000 0
                  ["imageprocessing"; "abc"] keyed_boot _ eq_refl)
               "imageprocessing" "abc" eq_refl eq_refl).
Defined.

(** C5 as the claim has it fails on the code: a run given the argument
    ["abc"], with the credential file in place, returns 0. *)
Lemma non_numeric_argument_exits_zero :
  ~ (forall w tx fuel prog arg s content,
       fs s !! APIKEY_FILE = Some content ->
       Libc.non_numeric arg = true ->
       exit_status (outcome (Looping.main w tx fuel [prog; arg] s))
       <> Some 0).
Proof.
  intros H.
  apply (H two_alive Looping.texts_000 0%nat "imageprocessing" "abc"
           keyed_boot _ eq_refl eq_refl).
  reflexivity.
Qed.

(** ** Grayscale conversion *)

Lemma gray_of_gray (c : GrayCoeffs) (v : Z) :
  Cv.coeffs_ok c -> Cv.gray_of c (BGR v v v) = v.
Proof.
  intros [Hshift Hsum]. unfold Cv.gray_of. cbn [blue green red].
  rewrite Z.shiftr_div_pow2, Z.shiftl_1_l by lia.
  replace (v * B2Y c + v * G2Y c + v * R2Y c)
    with (v * 2 ^ gray_shift c) by (rewrite <- Hsum; ring).
  rewrite Z.div_add_l by (apply Z.pow_nonzero; lia).
  rewrite Z.div_small; [lia|].
  split; [apply Z.pow_nonneg; lia|].
  apply Z.pow_lt_mono_r; lia.
Qed.

Lemma cvtColor_gray (c : GrayCoeffs) (g : Mat1) :
  Cv.coeffs_ok c -> Cv.cvtColor_BGR2GRAY c (Cv.gray_as_bgr g) = g.
Proof.
  intros Hc. unfold Cv.cvtColor_BGR2GRAY, Cv.gray_as_bgr.
  rewrite List.map_map. rewrite <- (List.map_id g) at 2.
  apply List.map_ext. intros row.
  rewrite List.map_map. rewrite <- (List.map_id row) at 2.
  apply List.map_ext. intros v. now apply gray_of_gray.
Qed.

Lemma empty_gray_as_bgr (g : Mat1) : Cv.empty (Cv.gray_as_bgr g) = Cv.empty g.
Proof.
  unfold Cv.empty, Cv.gray_as_bgr.
  induction g as [|row g IH]; [reflexivity|]. cbn [List.map concat].
  destruct row as [|v row]; [exact IH | reflexivity].
Qed.

Lemma toGrayscale_run (w : World) (tx : Texts) (input output : string)
  (s : State) :
  toGrayscale w tx input output s =
  let image := match fs s !! input with
               | Some data => imdecode w data
               | None => []
               end in
  if Cv.empty image then
    ([EvImread input;
      EvStderr (unreadable_pre tx +:+ input +:+ unreadable_post tx)],
     Done tt s)
  else
    let gray := Cv.cvtColor_BGR2GRAY (gray_coeffs w) image in
    ([EvImread input; EvImwrite output gray],
     Done tt (mkState (S (clock s))
                (match imencode w (clock s) output gray with
                 | Some data => <[output := data]> (fs s)
                 | None => fs s
                 end))).
Proof.
  unfold toGrayscale. rewrite bind_read_file. cbv zeta.
  unfold bind, emit, cerr, tick, ret, write_file. cbn [clock fs].
  destruct (Cv.empty _); [reflexivity|].
  destruct (imencode w (clock s) output _); reflexivity.
Qed.

(** C8: a file that decodes to an image already gray, the three channels of
    every pixel equal, is converted to the single-channel image with the
    very same pixel values: that image is what is handed to [cv::imwrite].
    So converting the result of a conversion again, when the written file
    reads back as the image that was written, writes the same image. *)
Theorem grayscale_idempotent (w : World) (tx : Texts)
  (input output : string) (s : State) (data : string) (g : Mat1) :
  Cv.coeffs_ok (gray_coeffs w) ->
  fs s !! input = Some data ->
  imdecode w data = Cv.gray_as_bgr g ->
  Cv.empty g = false ->
  Cv.cvtColor_BGR2GRAY (gray_coeffs w) (Cv.gray_as_bgr g) = g /\
  toGrayscale w tx input output s =
    ([EvImread input; EvImwrite output g],
     Done tt (mkState (S (clock s))
                (match imencode w (clock s) output g with
                 | Some written => <[output := written]> (fs s)
                 | None => fs s
                 end))) /\
  (forall written output2,
     imencode w (clock s) output g = Some written ->
     imdecode w written = Cv.gray_as_bgr g ->
     events (toGrayscale w tx output output2
               (mkState (S (clock s)) (<[output := written]> (fs s))))
     = [EvImread output; EvImwrite output2 g]).
Proof.
  intros Hc Hfile Hdec Hne.
  pose proof (cvtColor_gray (gray_coeffs w) g Hc) as Hgray.
  split; [exact Hgray|]. split.
  - rewrite toGrayscale_run. cbv zeta.
    rewrite Hfile, Hdec, empty_gray_as_bgr, Hne, Hgray. reflexivity.
  - intros written output2 Hwr Hback.
    rewrite toGrayscale_run. cbv zeta. cbn [fs clock].
    rewrite lookup_insert_eq, Hback, empty_gray_as_bgr, Hne, Hgray.
    reflexivity.
Qed.

Lemma grayscale_idempotent_witness :
  events (toGrayscale (with_image two_alive (Cv.gray_as_bgr gray2x2))
            SinglePass.texts (image_file 0) (gray_file 0) one_image)
  = [EvImread (image_file 0); EvImwrite (gray_file 0) gray2x2].
Proof.
  assert (Hc : Cv.coeffs_ok Cv.coeffs14) by (split; [|reflexivity]; cbn; lia).
  rewrite (proj1 (proj2
    (grayscale_idempotent (with_image two_alive (Cv.gray_as_bgr gray2x2))
       SinglePass.texts (image_file 0) (gray_file 0) one_image "JFIF" gray2x2
       Hc eq_refl eq_refl eq_refl))).
  reflexivity.
Defined.

(** Both sets of constants OpenCV has used add up to one. *)
Example opencv_coeffs_ok : Cv.coeffs_ok Cv.coeffs14 /\ Cv.coeffs_ok Cv.coeffs15.
Proof. repeat split; cbn; lia. Qed.

(** ** One item of the batch: download, then conversion *)

Section Items.

Context (w : World) (tx : Texts).

Lemma single_pass_download_run (url file : string) (s : State) :
  SinglePass.downloadImage w url file s =
  if curl_easy_init w (clock s) then
    if fopen_wb w (S (clock s)) file then
      let '(res, data) := perform_get w (S (S (clock s))) url in
      ([EvGet url file res], Done (res =? CURLE_OK) (downloaded s file data))
    else ([], Done false (mkState (S (S (clock s))) (fs s)))
  else ([], Done false (mkState (S (clock s)) (fs s))).
Proof.
  unfold SinglePass.downloadImage, bind, tick, emit, ret, write_file, downloaded.
  cbn [clock fs].
  destruct (curl_easy_init w (clock s)); cbn [negb clock fs]; [|reflexivity].
  destruct (fopen_wb w (S (clock s)) file); cbn [negb clock fs]; [|reflexivity].
  now destruct (perform_get w (S (S (clock s))) url).
Qed.

Lemma looping_download_run (url file : string) (s : State) :
  Looping.downloadImage w url file s =
  if curl_easy_init w (clock s) then
    if fopen_wb w (S (clock s)) file then
      let '(res, data) := perform_get w (S (S (clock s))) url in
      ([EvGet url file res], Done tt (downloaded s file data))
    else ([], Exited 1 (mkState (S (S (clock s))) (fs s)))
  else ([], Exited 1 (mkState (S (clock s)) (fs s))).
Proof.
  unfold Looping.downloadImage, bind, tick, emit, ret, exit, write_file,
    downloaded.
  cbn [clock fs].
  destruct (curl_easy_init w (clock s)); cbn [negb clock fs]; [|reflexivity].
  destruct (fopen_wb w (S (clock s)) file); cbn [negb clock fs]; [|reflexivity].
  now destruct (perform_get w (S (S (clock s))) url).
Qed.

(** When curl cannot start or the file cannot be opened, the looping
    variants leave [downloadImage] through [exit(1)], silently. *)
Lemma looping_download_exits (url file : string) (s : State) :
  curl_easy_init w (clock s) && fopen_wb w (S (clock s)) file = false ->
  exists s',
    Looping.downloadImage w url file s = ([], Exited 1 s') /\ fs s' = fs s.
Proof.
  intros H. rewrite looping_download_run.
  destruct (curl_easy_init w (clock s)); cbn [andb] in H.
  - rewrite H. eauto.
  - eauto.
Qed.

End Items.

Lemma bind_assoc {A B C} (m : M A) (f : A -> M B) (g : B -> M C) (s : State) :
  bind (bind m f) g s = bind m (fun a => bind (f a) g) s.
Proof.
  unfold bind. destruct (m s) as [e1 [a s1|c s1|]]; try reflexivity.
  destruct (f a s1) as [e2 [b s2|c s2|]]; try reflexivity.
  destruct (g b s2) as [e3 r]. now rewrite app_assoc.
Qed.

Lemma bind_ext {A B} (m : M A) (f g : A -> M B) (s : State) :
  (forall a s1, f a s1 = g a s1) -> bind m f s = bind m g s.
Proof.
  intros H. unfold bind. destruct (m s) as [e1 [a s1|c s1|]]; try reflexivity.
  now rewrite H.
Qed.

Section LoopingItems.

Context (w : World) (tx : Texts).

Lemma looping_main_phases (fuel : nat) (argv : list string) (s : State)
  (content : string) :
  fs s !! APIKEY_FILE = Some content ->
  size argv = 2 ->
  Looping.main w tx fuel argv s =
  bind (harvest_phase w tx fuel argv content)
       (fun imageUrls => Looping.process_items w tx imageUrls 0 ;;; ret 0)%prog
       s.
Proof.
  intros Hkey Hargc. unfold Looping.main, harvest_phase.
  rewrite bind_read_file, Hkey, Hargc. change (2 =? 2) with true. cbv iota.
  rewrite bind_assoc. apply bind_ext. intros _ s1.
  now rewrite bind_assoc.
Qed.

Lemma items_exit_at (before : list string) (url : string)
  (after : list string) (i : Z) (s : State) evs s1 :
  Looping.process_items w tx before i s = (evs, Done tt s1) ->
  curl_easy_init w (clock s1)
    && fopen_wb w (S (clock s1)) (image_file (i + size before)) = false ->
  exists s2,
    fs s2 = fs s1 /\
    Looping.downloadImage w url (image_file (i + size before)) s1
      = ([], Exited 1 s2) /\
    Looping.process_items w tx (before ++ url :: after) i s
      = (evs, Exited 1 s2).
Proof.
  revert i s evs. induction before as [|u before IH]; intros i s evs Hrun Hfail.
  - cbn in Hrun. injection Hrun as <- <-.
    replace (i + size []) with i in * by (unfold size; cbn; lia).
    destruct (looping_download_exits w url (image_file i) s Hfail)
      as (s2 & Hdl & Hfs).
    exists s2. split_and!; [exact Hfs | exact Hdl |].
    cbn [app Looping.process_items]. unfold Looping.process_item.
    apply bind_exited. now apply bind_exited.
  - cbn [Looping.process_items] in Hrun.
    apply bind_done_inv in Hrun as (e1 & a & sa & e2 & Hitem & Hrest & ->).
    replace (i + size (u :: before)) with (i + 1 + size before) in *
      by (unfold size; cbn [List.length]; lia).
    destruct (IH (i + 1) sa e2 Hrest Hfail) as (s2 & Hfs & Hdl & Hall).
    exists s2. split_and!; [exact Hfs | exact Hdl |].
    cbn [app Looping.process_items].
    rewrite (bind_done _ _ _ _ _ _ Hitem), Hall. reflexivity.
Qed.

End LoopingItems.

(** C10: in the looping variants, when curl cannot be initialised or the
    image file cannot be opened for writing, [downloadImage] ends the
    process through [exit(1)] without a message; the loop over the items
    stops there with the events of the items before it and nothing more, so
    no later item is downloaded or converted, and [main] ends with status
    1. *)
Theorem download_setup_failure_exits (w : World) (tx : Texts)
  (before : list string) (url : string) (after : list string)
  (s : State) evs s1 :
  Looping.process_items w tx before 0 s = (evs, Done tt s1) ->
  curl_easy_init w (clock s1)
    && fopen_wb w (S (clock s1)) (image_file (size before)) = false ->
  exists s2,
    fs s2 = fs s1 /\
    Looping.downloadImage w url (image_file (size before)) s1
      = ([], Exited 1 s2) /\
    Looping.process_items w tx (before ++ url :: after) 0 s
      = (evs, Exited 1 s2) /\
    (forall fuel argv s0 content e0,
       fs s0 !! APIKEY_FILE = Some content ->
       size argv = 2 ->
       harvest_phase w tx fuel argv content s0
         = (e0, Done (before ++ url :: after) s) ->
       Looping.main w tx fuel argv s0 = (e0 ++ evs, Exited 1 s2) /\
       exit_status (outcome (Looping.main w tx fuel argv s0)) = Some 1).
Proof.
  intros Hrun Hfail.
  destruct (items_exit_at w tx before url after 0 s evs s1 Hrun Hfail)
    as (s2 & Hfs & Hdl & Hall).
  exists s2. split_and!; [exact Hfs | exact Hdl | exact Hall |].
  intros fuel argv s0 content e0 Hkey Hargc Hphase.
  assert (Hmain : Looping.main w tx fuel argv s0 = (e0 ++ evs, Exited 1 s2)).
  { rewrite (looping_main_phases w tx fuel argv s0 content Hkey Hargc).
    rewrite (bind_done _ _ _ _ _ _ Hphase).
    rewrite (bind_exited _ _ _ _ _ _ Hall). reflexivity. }
  now rewrite Hmain.
Qed.

Lemma download_setup_failure_exits_witness :
  exists s2,
    fs s2 = fs boot /\
    Looping.downloadImage disk_full "http://a/1.jpg" (image_file 0) boot
      = ([], Exited 1 s2) /\
    Looping.process_items disk_full Looping.texts_000
      ["http://a/1.jpg"; "http://c/3.png"] 0 boot
      = ([], Exited 1 s2).
Proof.
  destruct (download_setup_failure_exits disk_full Looping.texts_000
              [] "http://a/1.jpg" ["http://c/3.png"] boot [] boot
              eq_refl eq_refl) as (s2 & Hfs & Hdl & Hall & _).
  exists s2. exact (conj Hfs (conj Hdl Hall)).
Defined.

(** C4, as the code has it.  On an item whose transfer is made and ends
    well the variants do the same, log lines apart: same effects, same
    outcome, the conversion attempted.  When the transfer is made and
    fails, src/imageprocessing.cpp logs the failure and leaves the
    conversion out, and part_000 and part_001 go on to convert the file
    the transfer left.  When curl cannot start or the file cannot be
    opened, src/imageprocessing.cpp logs and goes on, and part_000 and
    part_001 end the process with status 1, no conversion attempted. *)
Theorem download_failure_policy (w : World) (tx : Texts) (url : string)
  (i : Z) (s : State) :
  (forall res data,
     curl_easy_init w (clock s) = true ->
     fopen_wb w (S (clock s)) (image_file i) = true ->
     perform_get w (S (S (clock s))) url = (res, data) ->
     (res = CURLE_OK ->
      effects (events (SinglePass.process_item w url i s))
        = effects (events (Looping.process_item w tx url i s)) /\
      outcome (SinglePass.process_item w url i s)
        = outcome (Looping.process_item w tx url i s) /\
      In (EvImread (image_file i))
         (events (SinglePass.process_item w url i s))) /\
     (res <> CURLE_OK ->
      SinglePass.process_item w url i s
        = ([EvGet url (image_file i) res;
            EvStderr ("Failed to download: " +:+ url)],
           Done tt (downloaded s (image_file i) data)) /\
      Looping.process_item w tx url i s
        = (EvGet url (image_file i) res
             :: events (toGrayscale w tx (image_file i) (gray_file i)
                          (downloaded s (image_file i) data)),
           outcome (toGrayscale w tx (image_file i) (gray_file i)
                      (downloaded s (image_file i) data))) /\
      In (EvImread (image_file i))
         (events (Looping.process_item w tx url i s)))) /\
  (curl_easy_init w (clock s)
     && fopen_wb w (S (clock s)) (image_file i) = false ->
   (exists s',
      SinglePass.process_item w url i s
        = ([EvStderr ("Failed to download: " +:+ url)], Done tt s') /\
      fs s' = fs s) /\
   (exists s',
      Looping.process_item w tx url i s = ([], Exited 1 s') /\
      fs s' = fs s)).
Proof.
  split.
  - intros res data Hinit Hopen Hget.
    assert (Hsp : SinglePass.downloadImage w url (image_file i) s
                  = ([EvGet url (image_file i) res],
                     Done (res =? CURLE_OK) (downloaded s (image_file i) data))).
    { now rewrite single_pass_download_run, Hinit, Hopen, Hget. }
    assert (Hlp : Looping.downloadImage w url (image_file i) s
                  = ([EvGet url (image_file i) res],
                     Done tt (downloaded s (image_file i) data))).
    { now rewrite looping_download_run, Hinit, Hopen, Hget. }
    assert (Hl : Looping.process_item w tx url i s
                 = (EvGet url (image_file i) res
                      :: events (toGrayscale w tx (image_file i) (gray_file i)
                                   (downloaded s (image_file i) data)),
                    outcome (toGrayscale w tx (image_file i) (gray_file i)
                               (downloaded s (image_file i) data)))).
    { unfold Looping.process_item. now rewrite (bind_done _ _ _ _ _ _ Hlp). }
    split.
    + intros ->. rewrite Hl. unfold SinglePass.process_item.
      rewrite (bind_done _ _ _ _ _ _ Hsp). change (CURLE_OK =? CURLE_OK) with true.
      cbv iota. unfold bind, cout, emit.
      rewrite !toGrayscale_run. cbv zeta.
      destruct (Cv.empty _); cbn;
        (split_and!; [reflexivity | reflexivity | do 2 right; now left]).
    + intros Hres. apply Z.eqb_neq in Hres.
      split_and!; [| exact Hl |].
      * unfold SinglePass.process_item.
        rewrite (bind_done _ _ _ _ _ _ Hsp), Hres. reflexivity.
      * rewrite Hl. right. rewrite toGrayscale_run. cbv zeta.
        destruct (Cv.empty _); now left.
  - intros Hfail. split.
    + unfold SinglePass.process_item.
      assert (Hsp : exists s',
                SinglePass.downloadImage w url (image_file i) s
                = ([], Done false s') /\ fs s' = fs s).
      { rewrite single_pass_download_run.
        destruct (curl_easy_init w (clock s)); cbn [andb] in Hfail;
          [rewrite Hfail|]; eauto. }
      destruct Hsp as (s' & Hsp & Hfs).
      exists s'. rewrite (bind_done _ _ _ _ _ _ Hsp). now split.
    + destruct (looping_download_exits w url (image_file i) s Hfail)
        as (s' & Hdl & Hfs).
      exists s'. split; [|exact Hfs].
      unfold Looping.process_item. now apply bind_exited.
Qed.

Lemma download_failure_policy_witness :
  SinglePass.process_item no_route "http://a/1.jpg" 0 boot
    = ([EvGet "http://a/1.jpg" (image_file 0) 7;
        EvStderr "Failed to download: http://a/1.jpg"],
       Done tt (downloaded boot (image_file 0) "JFIF")) /\
  In (EvImread (image_file 0))
     (events (Looping.process_item no_route Looping.texts_000
                "http://a/1.jpg" 0 boot)).
Proof.
  assert (Hres : 7 <> CURLE_OK) by discriminate.
  destruct (proj2 (proj1 (download_failure_policy no_route Looping.texts_000
                     "http://a/1.jpg" 0 boot)
                     7 "JFIF" eq_refl eq_refl eq_refl) Hres)
    as (Hsp & _ & Hin).
  exact (conj Hsp Hin).
Defined.

(** C4 as the claim has it fails on the code: in the looping variants the
    conversion is not attempted whatever the download did.  With a disk
    that refuses the image file the process ends inside [downloadImage]
    and the file is never read. *)
Lemma conversion_not_unconditional :
  ~ (forall w tx url i s,
       In (EvImread (image_file i))
          (events (Looping.process_item w tx url i s))).
Proof.
  intros H.
  exact (H disk_full Looping.texts_000 "http://a/1.jpg" 0 boot).
Qed.

(** With either set of constants the gray value of an 8-bit pixel is an
    8-bit value: the conversion never has to saturate. *)
Lemma gray_of_range (c : GrayCoeffs) (p : Vec3b) :
  c = Cv.coeffs14 \/ c = Cv.coeffs15 ->
  Cv.pixel_ok (blue p) -> Cv.pixel_ok (green p) -> Cv.pixel_ok (red p) ->
  Cv.pixel_ok (Cv.gray_of c p).
Proof.
  unfold Cv.pixel_ok, Cv.gray_of. intros [-> | ->] Hb Hg Hr;
    cbn [B2Y G2Y R2Y gray_shift Cv.coeffs14 Cv.coeffs15];
    rewrite Z.shiftr_div_pow2, Z.shiftl_1_l by lia;
    (split; [apply Z.div_pos; lia | apply Z.lt_succ_r]);
    apply Z.div_lt_upper_bound; lia.
Qed.

(** ** A run of the scenario of the specification

    Count 2, one cycle offering four lines of which three hold "http" and
    two are alive: the looping harvester returns those two after two
    requests and three probes, and asks for nothing more. *)
Example one_cycle_is_enough :
  Looping.generateImageUrls two_alive Looping.texts_000 1 "K" 2 boot
  = ([EvPost (ENDPOINT +:+ "K")
        (request_body (Looping.generationPrompt 2)) CURLE_OK;
      EvPost (ENDPOINT +:+ "K")
        (request_body (Looping.extractionPrompt listing3)) CURLE_OK;
      EvHead "http://a/1.jpg" CURLE_OK 200;
      EvHead "http://b/2.jpg" CURLE_OK 404;
      EvHead "http://c/3.png" CURLE_OK 200],
     Done ["http://a/1.jpg"; "http://c/3.png"] (mkState 10 ∅)).
Proof. vm_compute. reflexivity. Qed.

(** * Further properties of the code *)

(** ** Lines and the credential line *)

Lemma lines_nil (s : string) : Str.lines s = [] -> s = "".
Proof.
  destruct s as [|c s]; [reflexivity|]. cbn [Str.lines].
  destruct (Ascii.eqb c "010"); [discriminate|].
  destruct (Str.lines s); discriminate.
Qed.

(** X1: Cutting a text into lines loses nothing but the newlines: putting a
    newline back after every line gives the text again, with a newline
    added at the end when the text did not end with one. *)
Theorem unlines_lines (s : string) :
  unlines (Str.lines s) = if terminated s then s else s +:+ newline.
Proof.
  induction s as [|c s IH]; [reflexivity|].
  cbn [Str.lines terminated].
  destruct (Ascii.eqb_spec c "010") as [->|Hc].
  - cbn [unlines]. rewrite append_nil_l, IH.
    destruct s as [|d s]; [reflexivity|].
    destruct (terminated (String d s)); [reflexivity|].
    now rewrite append_cons.
  - destruct (Str.lines s) as [|l ls] eqn:El.
    + apply lines_nil in El. subst s. reflexivity.
    + cbn [unlines] in *. rewrite append_cons, IH.
      destruct s as [|d s]; [discriminate|].
      destruct (terminated (String d s)); [reflexivity|].
      now rewrite append_cons.
Qed.

Lemma lines_line_then (x rest : string) :
  has_char "010" x = false ->
  Str.lines (x +:+ String "010" rest) = x :: Str.lines rest.
Proof.
  induction x as [|c x IH]; intros H; [reflexivity|].
  cbn [has_char] in H. apply orb_false_iff in H as [Hc Hx].
  rewrite append_cons. cbn [Str.lines]. rewrite Hc, (IH Hx). reflexivity.
Qed.

(** X2: Lines without a newline inside, each written out followed by a
    newline, are read back one by one as they were, empty lines included. *)
Theorem lines_unlines (l : list string) :
  Forall (fun x => has_char "010" x = false) l ->
  Str.lines (unlines l) = l.
Proof.
  induction 1 as [|x l Hx _ IH]; [reflexivity|].
  cbn [unlines]. now rewrite (lines_line_then x _ Hx), IH.
Qed.

Lemma lines_unlines_witness :
  Str.lines (unlines ["http://a/1.jpg"; ""; "nope"])
  = ["http://a/1.jpg"; ""; "nope"].
Proof.
  apply (lines_unlines ["http://a/1.jpg"; ""; "nope"]).
  repeat constructor.
Defined.

Lemma lines_no_newline (s : string) :
  Forall (fun x => has_char "010" x = false) (Str.lines s).
Proof.
  induction s as [|c s IH]; cbn [Str.lines]; [constructor|].
  destruct (Ascii.eqb c "010") eqn:Hc; [now constructor|].
  destruct (Str.lines s) as [|l ls]; [repeat constructor; cbn; now rewrite Hc|].
  apply List.Forall_cons_iff in IH as [Hl Hls].
  constructor; [|exact Hls]. cbn [has_char]. now rewrite Hc, Hl.
Qed.

(** X3: Whatever the extraction text, a candidate is one of its lines, holds
    "http", and has no newline inside: a candidate never spans two lines. *)
Theorem candidates_are_single_lines (urlsText : string) :
  Forall (fun line =>
            In line (Str.lines urlsText) /\
            has_http line = true /\
            has_char "010" line = false)
         (candidate_lines urlsText).
Proof.
  apply List.Forall_forall. intros line Hin.
  unfold candidate_lines in Hin. rewrite split_lines_spec in Hin by lia.
  cbn [app] in Hin. apply filter_In in Hin as [Hl Hh].
  split_and!; [exact Hl | exact Hh |].
  pose proof (lines_no_newline urlsText) as Hall.
  rewrite List.Forall_forall in Hall. now apply Hall.
Qed.

(** X4: The key read from the credential file is the start of the file up to
    its first newline, whatever the file holds: it has no newline inside,
    and what follows it in the file is nothing or begins with a newline.  A
    file without any newline is the key as a whole. *)
Theorem read_key_is_first_line (content : string) :
  has_char "010" (read_key content) = false /\
  (content = read_key content \/
   exists rest, content = read_key content +:+ String "010" rest).
Proof.
  unfold read_key, Str.getline.
  destruct content as [|c content]; [split; [reflexivity | now left]|].
  generalize (String c content). clear c content. intros s.
  induction s as [|c s [IHn IHs]]; [split; [reflexivity | now left]|].
  cbn [Str.read_line].
  destruct (Ascii.eqb_spec c "010") as [->|Hc].
  - split; [reflexivity|]. right. now exists s.
  - destruct (Str.read_line s) as [l rest] eqn:E. cbn [fst] in *.
    split.
    + cbn [has_char]. rewrite IHn.
      now destruct (Ascii.eqb_spec c "010").
    + destruct IHs as [Hs | [r Hs]].
      * left. now rewrite Hs at 1.
      * right. exists r. now rewrite Hs at 1.
Qed.

(** ** Reading the reply of the endpoint *)

Lemma first_candidate_text_guard (j : json) (t : string) :
  first_candidate_text j = inr t ->
  Json.contains j "candidates"
  && negb (Json.empty (match Json.at_key j "candidates" with
                       | inr c => c
                       | inl _ => JNull
                       end)) = true.
Proof.
  unfold first_candidate_text.
  destruct j as [| | | | |ms]; try discriminate.
  cbn [Json.at_key Json.contains Json.and_then].
  destruct (Json.lookup "candidates" ms) as [c|]; [|discriminate].
  destruct c as [| | | |items|]; try discriminate.
  destruct items; [discriminate | reflexivity].
Qed.

(** X5: The text of a reply is found exactly when the parsed reply has a string
    at [candidates[0].content.parts[0].text]: then that string is returned,
    nothing is logged and nothing else of the reply matters.  In every other
    case the result is the empty string.  Reading a reply never changes the
    state and never touches the network. *)
Theorem extract_text_characterised (w : World) (tx : Texts)
  (response : string) (s : State) :
  exists evs text,
    extractTextFromGemini w tx response s = (evs, Done text s) /\
    Forall offline evs /\
    (forall j t,
       json_parse w response = inr j -> first_candidate_text j = inr t ->
       evs = [] /\ text = t) /\
    (text <> "" ->
     evs = [] /\
     exists j, json_parse w response = inr j /\
               first_candidate_text j = inr text).
Proof.
  unfold extractTextFromGemini.
  destruct (json_parse w response) as [what|j] eqn:Hparse.
  - eexists _, _. split; [reflexivity|]. cbn.
    split_and!; [repeat constructor | discriminate | congruence].
  - destruct (first_candidate_text j) as [id|t] eqn:Hpath.
    + destruct (_ && _).
      * eexists _, _. split; [reflexivity|]. cbn.
        split_and!; [repeat constructor | | congruence].
        intros j' t' Hj. injection Hj as <-. congruence.
      * eexists _, _. split; [reflexivity|]. cbn.
        split_and!; [constructor | | congruence].
        intros j' t' Hj. injection Hj as <-. congruence.
    + rewrite (first_candidate_text_guard j t Hpath).
      exists [], t. split; [reflexivity|].
      split_and!; [constructor | |].
      * intros j' t' Hj Ht. injection Hj as <-. split; congruence.
      * intros _. split; [reflexivity|]. now exists j.
Qed.

(** X6: A reply without candidates is taken silently, a reply whose first
    candidate lacks its content is reported: with no ["candidates"] member,
    or with one that is [null], [[]] or [{}], the empty string is returned
    and nothing is logged; with a first candidate that is an object
    without ["content"], the conversion to a string throws, the error is
    logged and the empty string is returned. *)
Theorem extract_text_missing_members (w : World) (tx : Texts)
  (response : string) (s : State) (ms : list (string * json)) :
  json_parse w response = inr (JObj ms) ->
  (Json.lookup "candidates" ms = None \/
   Json.lookup "candidates" ms = Some JNull \/
   Json.lookup "candidates" ms = Some (JArr []) \/
   Json.lookup "candidates" ms = Some (JObj []) ->
   extractTextFromGemini w tx response s = ([], Done "" s)) /\
  (forall m0 others,
     Json.lookup "candidates" ms = Some (JArr (JObj m0 :: others)) ->
     Json.lookup "content" m0 = None ->
     extractTextFromGemini w tx response s
     = ([EvStderr (parse_error_pre tx +:+ json_type_error w 302)],
        Done "" s)).
Proof.
  intros Hparse. unfold extractTextFromGemini. rewrite Hparse. split.
  - intros [H | [H | [H | H]]];
      cbn [Json.contains Json.at_key]; rewrite H; reflexivity.
  - intros m0 others Hc Hm0.
    unfold first_candidate_text.
    cbn [Json.contains Json.at_key Json.and_then]. rewrite Hc.
    cbn [Json.empty negb andb Json.at_index nth Json.and_then Json.at_key].
    rewrite Hm0. reflexivity.
Qed.

Lemma extract_text_missing_members_witness :
  extractTextFromGemini hollow_reply SinglePass.texts "{}" boot
  = ([EvStderr "Error parsing Gemini response: type_error"], Done "" boot).
Proof.
  exact (proj2 (extract_text_missing_members hollow_reply SinglePass.texts
                  "{}" boot [("candidates", JArr [JObj []])] eq_refl)
               [] [] eq_refl eq_refl).
Defined.

(** ** The liveness probe *)

(** X7: A URL is accepted exactly when curl could be initialised and the probe
    made right after it ended with [CURLE_OK] and the status 200, nothing
    else: a transfer error, or any other status, refuses it.  A probe never
    changes a file, and sends nothing but itself. *)
Theorem isAccessible_true_iff (w : World) (url : string) (s : State) :
  exists evs ok s',
    isAccessible w url s = (evs, Done ok s') /\
    fs s' = fs s /\
    (ok = true <->
     curl_easy_init w (clock s) = true /\
     perform_head w (S (clock s)) url = (CURLE_OK, 200)) /\
    (evs = [] \/ exists res code, evs = [EvHead url res code]).
Proof.
  rewrite isAccessible_run.
  destruct (curl_easy_init w (clock s)).
  - destruct (perform_head w (S (clock s)) url) as [res code] eqn:Hp.
    eexists _, _, _. split; [reflexivity|]. cbn [fs].
    split_and!; [reflexivity | | right; eauto].
    split.
    + intros H. apply andb_true_iff in H as [Hr Hc].
      apply Z.eqb_eq in Hr. subst res.
      change (CURLE_OK =? CURLE_OK) with true in Hc. cbv iota in Hc.
      apply Z.eqb_eq in Hc. now subst code.
    + intros [_ H]. injection H as -> ->. reflexivity.
  - eexists _, _, _. split; [reflexivity|]. cbn [fs].
    split_and!; [reflexivity | | now left].
    split; [discriminate | intros [H _]; discriminate].
Qed.

(** ** What a download and a conversion do to the files *)

(** X8: A download touches no file but its target.  Once curl is up and the
    target is opened, the target holds exactly what the transfer delivered,
    whether the transfer ended well or not: what the file held before is
    gone, and a failed transfer leaves a partial or empty file behind.  When
    curl cannot start or the target cannot be opened, no file changes and
    no request is made.  The looping variants do the same to the files and
    the network.  Where curl cannot start or the target cannot be opened
    they leave through [exit(1)] and the single pass returns [false]; after
    a transfer, ended well or not, they return and the single pass returns
    whether it ended with [CURLE_OK]. *)
Theorem download_file_effect (w : World) (url file : string) (s : State) :
  exists evs ok s',
    SinglePass.downloadImage w url file s = (evs, Done ok s') /\
    (forall path, path <> file -> fs s' !! path = fs s !! path) /\
    (curl_easy_init w (clock s) && fopen_wb w (S (clock s)) file = true ->
     fs s' !! file = Some (snd (perform_get w (S (S (clock s))) url)) /\
     ok = (fst (perform_get w (S (S (clock s))) url) =? CURLE_OK) /\
     evs = [EvGet url file (fst (perform_get w (S (S (clock s))) url))]) /\
    (curl_easy_init w (clock s) && fopen_wb w (S (clock s)) file = false ->
     fs s' = fs s /\ ok = false /\ evs = []) /\
    Looping.downloadImage w url file s
    = (evs,
       if curl_easy_init w (clock s) && fopen_wb w (S (clock s)) file
       then Done tt s' else Exited 1 s').
Proof.
  rewrite single_pass_download_run, looping_download_run.
  destruct (curl_easy_init w (clock s)); cbn [andb].
  - destruct (fopen_wb w (S (clock s)) file).
    + destruct (perform_get w (S (S (clock s))) url) as [res data].
      eexists _, _, _. split; [reflexivity|]. cbn [fst snd downloaded fs].
      split_and!; [| | discriminate | reflexivity].
      * intros path Hne. now rewrite !lookup_insert_ne by congruence.
      * intros _. now rewrite lookup_insert_eq.
    + eexists _, _, _. split; [reflexivity|]. cbn [fs].
      split_and!; [reflexivity | discriminate | now intros _ | reflexivity].
  - eexists _, _, _. split; [reflexivity|]. cbn [fs].
    split_and!; [reflexivity | discriminate | now intros _ | reflexivity].
Qed.

(** X9: A conversion always comes back, makes no network call and changes no
    file but its output.  When the input is missing or does not decode to
    an image with pixels, it changes nothing at all: it logs that the input
    is unreadable and hands nothing to [cv::imwrite]. *)
Theorem toGrayscale_frame (w : World) (tx : Texts) (input output : string)
  (s : State) :
  exists evs s',
    toGrayscale w tx input output s = (evs, Done tt s') /\
    Forall offline evs /\
    (forall path, path <> output -> fs s' !! path = fs s !! path) /\
    (Cv.empty (match fs s !! input with
               | Some data => imdecode w data
               | None => []
               end) = true ->
     s' = s /\
     evs = [EvImread input;
            EvStderr (unreadable_pre tx +:+ input +:+ unreadable_post tx)]).
Proof.
  rewrite toGrayscale_run. cbv zeta.
  destruct (Cv.empty _).
  - eexists _, _. split; [reflexivity|].
    split_and!; [repeat constructor | reflexivity | now intros _].
  - eexists _, _. split; [reflexivity|]. cbn [fs].
    split_and!; [repeat constructor | | discriminate].
    intros path Hne.
    destruct (imencode w (clock s) output _); [|reflexivity].
    now rewrite lookup_insert_ne by congruence.
Qed.

(** ** What the harvester returns and asks for *)

Lemma count_posts_app (a b : list event) :
  count_posts (a ++ b) = (count_posts a + count_posts b)%nat.
Proof. unfold count_posts. now rewrite List.filter_app, length_app. Qed.

Lemma count_posts_probes (evs : list event) :
  only_probes evs -> count_posts evs = 0%nat.
Proof.
  unfold count_posts. induction 1 as [|e evs (u & r & c & ->) _ IH];
    [reflexivity | exact IH].
Qed.

Lemma postToGemini_count (w : World) (apiKey prompt : string) (s : State) :
  (count_posts (events (postToGemini w apiKey prompt s)) <= 1)%nat.
Proof.
  unfold postToGemini, bind, tick, emit, cerr, ret, events. cbn [clock fs].
  destruct (curl_easy_init w (clock s)); cbn [negb clock fs]; [|cbn; lia].
  destruct (perform_post w (S (clock s)) _ _) as [res buf].
  destruct (res =? CURLE_OK); cbn; lia.
Qed.

Lemma extract_count (w : World) (tx : Texts) (response : string) (s : State) :
  count_posts (events (extractTextFromGemini w tx response s)) = 0%nat.
Proof.
  unfold extractTextFromGemini, bind, emit, cerr, ret, events.
  destruct (json_parse w response) as [what|j]; [reflexivity|].
  destruct (_ && _); [|reflexivity].
  destruct (first_candidate_text j); reflexivity.
Qed.

Lemma candidate_lines_clean (urlsText : string) :
  Forall clean_candidate (candidate_lines urlsText).
Proof.
  apply List.Forall_forall. intros line Hin.
  unfold candidate_lines in Hin. rewrite split_lines_spec in Hin by lia.
  cbn [app] in Hin. apply filter_In in Hin as [Hl Hh].
  split; [exact Hh|].
  pose proof (lines_no_newline urlsText) as Hall.
  rewrite List.Forall_forall in Hall. now apply Hall.
Qed.

Section FilterShape.

Context (w : World) (n : Z).

(** The filtering loop keeps candidates in their order. *)
Lemma check_accessible_sublist (urls acc : list string) (s : State) :
  exists evs new s',
    check_accessible w n urls acc s = (evs, Done (acc ++ new) s') /\
    new `sublist_of` urls.
Proof.
  revert acc s. induction urls as [|url rest IH]; intros acc s.
  - exists [], [], s. now rewrite app_nil_r.
  - cbn [check_accessible].
    destruct (isAccessible_spec w url s) as (e1 & ok & s1 & Hrun & _).
    rewrite (bind_done _ _ _ _ _ _ Hrun).
    destruct ok.
    + destruct (size (acc ++ [url]) =? size_t_of_int n).
      * exists e1, [url], s1. cbn [fst snd]. rewrite app_nil_r.
        split; [reflexivity|]. apply sublist_skip, sublist_nil_l.
      * destruct (IH (acc ++ [url]) s1) as (e2 & new & s2 & -> & Hsub).
        exists (e1 ++ e2), (url :: new), s2. rewrite <- app_assoc.
        split; [reflexivity|]. now apply sublist_skip.
    + destruct (IH acc s1) as (e2 & new & s2 & -> & Hsub).
      exists (e1 ++ e2), new, s2. split; [reflexivity|].
      now apply sublist_cons.
Qed.

(** When the filtering loop, started below the count, hands back a list
    of the size of the count, the last thing it did was the successful probe
    of the last URL of the list. *)
Lemma check_accessible_stops (urls acc : list string) (s : State)
  evs res s' :
  size acc < size_t_of_int n ->
  check_accessible w n urls acc s = (evs, Done res s') ->
  size res = size_t_of_int n ->
  ends_with_accepting evs res.
Proof.
  revert acc s evs. induction urls as [|url rest IH]; intros acc s evs Hlt Hrun Hfull.
  - cbn in Hrun. injection Hrun as <- <- <-. lia.
  - cbn [check_accessible] in Hrun.
    destruct (isAccessible_spec w url s) as (e1 & ok & s1 & Hp & _ & _ & Hev & Hok).
    rewrite (bind_done _ _ _ _ _ _ Hp) in Hrun.
    destruct ok.
    + destruct (Hok eq_refl) as [Hin _].
      assert (He1 : e1 = [EvHead url CURLE_OK 200]).
      { rewrite isAccessible_run in Hp.
        destruct (curl_easy_init w (clock s)); [|now injection Hp as <-].
        destruct (perform_head w (S (clock s)) url) as [r c].
        injection Hp as <- Hb _. destruct Hin as [Hin|[]].
        now rewrite Hin. }
      destruct (size (acc ++ [url]) =? size_t_of_int n) eqn:Hsz.
      * cbn in Hrun. injection Hrun as <- <- <-. rewrite app_nil_r.
        exists [], url. rewrite He1. split; [reflexivity|].
        apply last_snoc.
      * apply Z.eqb_neq in Hsz.
        destruct (check_accessible w n rest (acc ++ [url]) s1) as [e2 r2] eqn:E.
        cbn [fst snd] in Hrun. injection Hrun as <- ->.
        assert (Hlt' : size (acc ++ [url]) < size_t_of_int n).
        { rewrite size_app in *. unfold size in *. cbn [List.length] in *. lia. }
        destruct (IH _ _ _ Hlt' E Hfull) as (evs0 & u & -> & Hlast).
        exists (e1 ++ evs0), u. now rewrite <- app_assoc.
    + destruct (check_accessible w n rest acc s1) as [e2 r2] eqn:E.
      cbn [fst snd] in Hrun. injection Hrun as <- ->.
      destruct (IH _ _ _ Hlt E Hfull) as (evs0 & u & -> & Hlast).
      exists (e1 ++ evs0), u. now rewrite <- app_assoc.
Qed.

End FilterShape.

Lemma ends_with_accepting_app (pre evs : list event) (urls : list string) :
  ends_with_accepting evs urls -> ends_with_accepting (pre ++ evs) urls.
Proof.
  intros (evs0 & u & -> & Hlast). exists (pre ++ evs0), u.
  now rewrite <- app_assoc.
Qed.

Lemma sublist_clean (new urls : list string) :
  new `sublist_of` urls -> Forall clean_candidate urls ->
  Forall clean_candidate new.
Proof.
  intros Hsub Hall. rewrite List.Forall_forall in *. intros u Hu.
  apply Hall. apply list_elem_of_In. apply list_elem_of_In in Hu.
  eapply sublist_subseteq; eauto.
Qed.

Section HarvestShape.

Context (w : World) (apiKey : string) (n : Z).

(** A single pass is two requests at most, then the filtering loop over
    clean candidates (over none, when a text came back empty). *)
Lemma single_pass_decompose (s : State) :
  exists pre cands s4 e5 urls s5,
    SinglePass.generateImageUrls w apiKey n s = (pre ++ e5, Done urls s5) /\
    (count_posts pre <= 2)%nat /\
    Forall clean_candidate cands /\
    check_accessible w n cands [] s4 = (e5, Done urls s5).
Proof.
  unfold SinglePass.generateImageUrls.
  pose proof (postToGemini_count w apiKey (SinglePass.generationPrompt n) s) as Hc1.
  destruct (bind_returns _
    (fun generationResponse =>
       genText <- extractTextFromGemini w SinglePass.texts generationResponse ;;
       if String.eqb genText "" then
         cerr "Gemini generation returned empty text." ;;; ret []
       else
         extractionResponse <-
           postToGemini w apiKey (SinglePass.extractionPrompt genText) ;;
         urlsText <-
           extractTextFromGemini w SinglePass.texts extractionResponse ;;
         if String.eqb urlsText "" then
           cerr "Gemini extraction returned empty text." ;;; ret []
         else check_accessible w n (candidate_lines urlsText) [])%prog
    s (returns_postToGemini w apiKey (SinglePass.generationPrompt n)))
    as (e1 & r1 & s1 & He1 & _ & _ & ->).
  rewrite He1 in Hc1. cbn [events fst] in Hc1.
  pose proof (extract_count w SinglePass.texts r1 s1) as Hc2.
  destruct (bind_returns _
    (fun genText =>
       if String.eqb genText "" then
         cerr "Gemini generation returned empty text." ;;; ret []
       else
         extractionResponse <-
           postToGemini w apiKey (SinglePass.extractionPrompt genText) ;;
         urlsText <-
           extractTextFromGemini w SinglePass.texts extractionResponse ;;
         if String.eqb urlsText "" then
           cerr "Gemini extraction returned empty text." ;;; ret []
         else check_accessible w n (candidate_lines urlsText) [])%prog
    s1 (returns_extractTextFromGemini w SinglePass.texts r1))
    as (e2 & genText & s2 & He2 & _ & _ & ->).
  rewrite He2 in Hc2. cbn [events fst] in Hc2.
  destruct (String.eqb genText "").
  { exists (e1 ++ e2 ++ [EvStderr "Gemini generation returned empty text."]),
      [], s2, [], [], s2.
    cbn [fst snd bind cerr emit ret app]. rewrite !app_nil_r.
    split_and!; [reflexivity | | constructor | reflexivity].
    rewrite !count_posts_app, Hc2. cbn. lia. }
  pose proof (postToGemini_count w apiKey (SinglePass.extractionPrompt genText) s2)
    as Hc3.
  destruct (bind_returns _
    (fun extractionResponse =>
       urlsText <-
         extractTextFromGemini w SinglePass.texts extractionResponse ;;
       if String.eqb urlsText "" then
         cerr "Gemini extraction returned empty text." ;;; ret []
       else check_accessible w n (candidate_lines urlsText) [])%prog
    s2 (returns_postToGemini w apiKey (SinglePass.extractionPrompt genText)))
    as (e3 & r3 & s3 & He3 & _ & _ & ->).
  rewrite He3 in Hc3. cbn [events fst] in Hc3.
  pose proof (extract_count w SinglePass.texts r3 s3) as Hc4.
  destruct (bind_returns _
    (fun urlsText =>
       if String.eqb urlsText "" then
         cerr "Gemini extraction returned empty text." ;;; ret []
       else check_accessible w n (candidate_lines urlsText) [])%prog
    s3 (returns_extractTextFromGemini w SinglePass.texts r3))
    as (e4 & urlsText & s4 & He4 & _ & _ & ->).
  rewrite He4 in Hc4. cbn [events fst] in Hc4.
  destruct (String.eqb urlsText "").
  { exists (e1 ++ e2 ++ e3 ++ e4
            ++ [EvStderr "Gemini extraction returned empty text."]),
      [], s4, [], [], s4.
    cbn [fst snd bind cerr emit ret app]. rewrite !app_nil_r.
    split_and!; [reflexivity | | constructor | reflexivity].
    rewrite !count_posts_app, Hc2, Hc4. cbn. lia. }
  destruct (check_accessible_spec w n (candidate_lines urlsText) [] s4)
    as (e5 & new & s5 & Hrun & _).
  cbn [app] in Hrun. rewrite Hrun. cbn [fst snd].
  exists (e1 ++ e2 ++ e3 ++ e4), (candidate_lines urlsText), s4, e5, new, s5.
  rewrite <- !app_assoc.
  split_and!; [reflexivity | | apply candidate_lines_clean | exact Hrun].
  rewrite !count_posts_app, Hc2, Hc4. lia.
Qed.

Context (tx : Texts).

(** A cycle is two requests at most, then the filtering loop over clean
    candidates, starting from the list the cycle was given. *)
Lemma cycle_decompose (image_urls : list string) (s : State) :
  exists pre cands s4 e5 urls s5,
    Looping.cycle w tx apiKey n image_urls s = (pre ++ e5, Done urls s5) /\
    (count_posts pre <= 2)%nat /\
    Forall clean_candidate cands /\
    check_accessible w n cands image_urls s4 = (e5, Done urls s5).
Proof.
  unfold Looping.cycle.
  pose proof (postToGemini_count w apiKey (Looping.generationPrompt n) s) as Hc1.
  destruct (bind_returns _
    (fun generationResponse =>
       genText <- extractTextFromGemini w tx generationResponse ;;
       extractionResponse <-
         postToGemini w apiKey (Looping.extractionPrompt genText) ;;
       urlsText <- extractTextFromGemini w tx extractionResponse ;;
       check_accessible w n (candidate_lines urlsText) image_urls)%prog
    s (returns_postToGemini w apiKey (Looping.generationPrompt n)))
    as (e1 & r1 & s1 & He1 & _ & _ & ->).
  rewrite He1 in Hc1. cbn [events fst] in Hc1.
  pose proof (extract_count w tx r1 s1) as Hc2.
  destruct (bind_returns _
    (fun genText =>
       extractionResponse <-
         postToGemini w apiKey (Looping.extractionPrompt genText) ;;
       urlsText <- extractTextFromGemini w tx extractionResponse ;;
       check_accessible w n (candidate_lines urlsText) image_urls)%prog
    s1 (returns_extractTextFromGemini w tx r1))
    as (e2 & genText & s2 & He2 & _ & _ & ->).
  rewrite He2 in Hc2. cbn [events fst] in Hc2.
  pose proof (postToGemini_count w apiKey (Looping.extractionPrompt genText) s2)
    as Hc3.
  destruct (bind_returns _
    (fun extractionResponse =>
       urlsText <- extractTextFromGemini w tx extractionResponse ;;
       check_accessible w n (candidate_lines urlsText) image_urls)%prog
    s2 (returns_postToGemini w apiKey (Looping.extractionPrompt genText)))
    as (e3 & r3 & s3 & He3 & _ & _ & ->).
  rewrite He3 in Hc3. cbn [events fst] in Hc3.
  pose proof (extract_count w tx r3 s3) as Hc4.
  destruct (bind_returns _
    (fun urlsText =>
       check_accessible w n (candidate_lines urlsText) image_urls)
    s3 (returns_extractTextFromGemini w tx r3))
    as (e4 & urlsText & s4 & He4 & _ & _ & ->).
  rewrite He4 in Hc4. cbn [events fst] in Hc4.
  destruct (check_accessible_spec w n (candidate_lines urlsText) image_urls s4)
    as (e5 & new & s5 & Hrun & _).
  rewrite Hrun. cbn [fst snd].
  exists (e1 ++ e2 ++ e3 ++ e4), (candidate_lines urlsText), s4, e5,
    (image_urls ++ new), s5.
  rewrite <- !app_assoc.
  split_and!; [reflexivity | | apply candidate_lines_clean | exact Hrun].
  rewrite !count_posts_app, Hc2, Hc4. lia.
Qed.

End HarvestShape.

Section LoopShape.

Context (w : World) (tx : Texts) (apiKey : string) (n : Z).

Lemma loop_clean (fuel : nat) (image_urls : list string) (s : State) :
  Forall clean_candidate image_urls ->
  match outcome (Looping.generateImageUrls_from w tx fuel apiKey n
                   image_urls s) with
  | Done urls _ => Forall clean_candidate urls
  | _ => True
  end.
Proof.
  revert image_urls s. induction fuel as [|fuel IH]; intros acc s Hacc;
    cbn [Looping.generateImageUrls_from];
    destruct (size acc <? size_t_of_int n); try exact Hacc; [exact I|].
  destruct (cycle_decompose w apiKey n tx acc s)
    as (pre & cands & s4 & e5 & urls & s5 & Hc & _ & Hcl & Hchk).
  rewrite (bind_done _ _ _ _ _ _ Hc). cbn [outcome snd]. apply IH.
  destruct (check_accessible_sublist w n cands acc s4)
    as (e5' & new & s5' & Hchk' & Hsub).
  rewrite Hchk in Hchk'. injection Hchk' as _ -> _.
  apply Forall_app. split; [exact Hacc|]. now apply (sublist_clean new cands).
Qed.

Lemma loop_posts (fuel : nat) (image_urls : list string) (s : State) :
  (count_posts (events (Looping.generateImageUrls_from w tx fuel apiKey n
                          image_urls s)) <= 2 * fuel)%nat.
Proof.
  revert image_urls s. induction fuel as [|fuel IH]; intros acc s;
    cbn [Looping.generateImageUrls_from];
    destruct (size acc <? size_t_of_int n); try (cbn; lia).
  destruct (cycle_decompose w apiKey n tx acc s)
    as (pre & cands & s4 & e5 & urls & s5 & Hc & Hpre & _ & Hchk).
  rewrite (bind_done _ _ _ _ _ _ Hc). cbn [events fst].
  destruct (check_accessible_spec w n cands acc s4)
    as (e5' & new & s5' & Hchk' & _ & _ & Hprobes & _).
  rewrite Hchk in Hchk'. injection Hchk' as -> _ _.
  rewrite !count_posts_app, (count_posts_probes _ Hprobes).
  specialize (IH urls s5). unfold events in IH. lia.
Qed.

Lemma loop_stops (fuel : nat) (image_urls : list string) (s : State)
  evs urls s' :
  size image_urls < size_t_of_int n ->
  Looping.generateImageUrls_from w tx fuel apiKey n image_urls s
    = (evs, Done urls s') ->
  ends_with_accepting evs urls.
Proof.
  revert image_urls s evs. induction fuel as [|fuel IH]; intros acc s evs Hlt;
    cbn [Looping.generateImageUrls_from];
    apply Z.ltb_lt in Hlt as Hguard; rewrite Hguard; [discriminate|].
  intros Hrun.
  apply bind_done_inv in Hrun as (e1 & acc1 & s1 & e2 & Hc & Hloop & ->).
  destruct (size acc1 <? size_t_of_int n) eqn:Hg1.
  - apply Z.ltb_lt in Hg1. apply ends_with_accepting_app. eapply IH; eauto.
  - assert (Hret : e2 = [] /\ urls = acc1).
    { destruct fuel; cbn [Looping.generateImageUrls_from] in Hloop;
        rewrite Hg1 in Hloop; now injection Hloop as <- <- _. }
    destruct Hret as [-> ->]. rewrite app_nil_r.
    apply Z.ltb_ge in Hg1.
    destruct (cycle_decompose w apiKey n tx acc s)
      as (pre & cands & s4 & e5 & urls & s5 & Hc' & _ & _ & Hchk).
    rewrite Hc in Hc'. injection Hc' as -> -> _.
    apply ends_with_accepting_app.
    apply (check_accessible_stops w n cands acc s4 e5 urls s5 Hlt Hchk).
    destruct (check_accessible_spec w n cands acc s4)
      as (e5' & new & s5' & Hchk' & _ & _ & _ & _ & Hb).
    rewrite Hchk in Hchk'. injection Hchk' as _ -> _.
    specialize (Hb Hlt). lia.
Qed.

End LoopShape.

(** X10: Whatever the endpoint answers, both harvesters return only lines that
    passed the line filter: every returned URL holds "http" and has no
    newline inside. *)
Theorem harvest_returns_clean_candidates (w : World) (tx : Texts)
  (apiKey : string) (n : Z) (s : State) :
  (exists evs urls s',
     SinglePass.generateImageUrls w apiKey n s = (evs, Done urls s') /\
     Forall clean_candidate urls) /\
  (forall fuel,
     match outcome (Looping.generateImageUrls w tx fuel apiKey n s) with
     | Done urls _ => Forall clean_candidate urls
     | _ => True
     end).
Proof.
  split.
  - destruct (single_pass_decompose w apiKey n s)
      as (pre & cands & s4 & e5 & urls & s5 & Hrun & _ & Hcl & Hchk).
    exists (pre ++ e5), urls, s5. split; [exact Hrun|].
    destruct (check_accessible_sublist w n cands [] s4)
      as (e5' & new & s5' & Hchk' & Hsub).
    rewrite Hchk in Hchk'. injection Hchk' as _ -> _.
    now apply (sublist_clean new cands).
  - intros fuel. apply loop_clean. constructor.
Qed.

(** X11: The harvester does not retry a request: a single pass sends at most
    two generation requests, and the looping harvester at most two for each
    round of its loop. *)
Theorem harvest_request_budget (w : World) (tx : Texts) (apiKey : string)
  (n : Z) (s : State) :
  (count_posts (events (SinglePass.generateImageUrls w apiKey n s)) <= 2)%nat /\
  (forall fuel,
     (count_posts (events (Looping.generateImageUrls w tx fuel apiKey n s))
      <= 2 * fuel)%nat).
Proof.
  split.
  - destruct (single_pass_decompose w apiKey n s)
      as (pre & cands & s4 & e5 & urls & s5 & Hrun & Hpre & _ & Hchk).
    rewrite Hrun. cbn [events fst].
    destruct (check_accessible_spec w n cands [] s4)
      as (e5' & new & s5' & Hchk' & _ & _ & Hprobes & _).
    rewrite Hchk in Hchk'. injection Hchk' as -> _ _.
    rewrite count_posts_app, (count_posts_probes _ Hprobes). lia.
  - intros fuel. apply loop_posts.
Qed.

(** X12: Once the accepted total equals the count, nothing more is asked of the
    network: when a harvester asked for 1 to [INT_MAX] images returns that
    many, the last thing it did was the successful probe of the last URL it
    returns.  The looping harvester returns no other way. *)
Theorem harvest_stops_at_count (w : World) (tx : Texts) (apiKey : string)
  (n : Z) (s : State) :
  1 <= n <= INT_MAX ->
  (forall evs urls s',
     SinglePass.generateImageUrls w apiKey n s = (evs, Done urls s') ->
     size urls = n -> ends_with_accepting evs urls) /\
  (forall fuel evs urls s',
     Looping.generateImageUrls w tx fuel apiKey n s = (evs, Done urls s') ->
     ends_with_accepting evs urls).
Proof.
  intros Hn.
  assert (Hsz : size_t_of_int n = n) by (apply size_t_of_count; lia).
  split.
  - intros evs urls s' Hrun Hfull.
    destruct (single_pass_decompose w apiKey n s)
      as (pre & cands & s4 & e5 & urls' & s5 & Hrun' & _ & _ & Hchk).
    rewrite Hrun in Hrun'. injection Hrun' as -> -> _.
    apply ends_with_accepting_app.
    apply (check_accessible_stops w n cands [] s4 e5 urls' s5);
      [rewrite Hsz; unfold size; cbn; lia | exact Hchk | now rewrite Hsz].
  - intros fuel evs urls s' Hrun.
    apply (loop_stops w tx apiKey n fuel [] s evs urls s');
      [rewrite Hsz; unfold size; cbn; lia | exact Hrun].
Qed.

Lemma harvest_stops_at_count_witness :
  1 <= 2 <= INT_MAX /\
  ends_with_accepting
    (events (Looping.generateImageUrls two_alive Looping.texts_000 1 "K" 2 boot))
    ["http://a/1.jpg"; "http://c/3.png"].
Proof.
  assert (Hn : 1 <= 2 <= INT_MAX) by (unfold INT_MAX; lia).
  split; [exact Hn|].
  apply (proj2 (harvest_stops_at_count two_alive Looping.texts_000 "K" 2 boot Hn)
           1%nat _ _ (mkState 10 ∅)).
  vm_compute. reflexivity.
Defined.

(** ** The batch as a whole *)

Lemma touches_bind {A B} ok (m : M A) (k : A -> M B) :
  touches_only ok m -> (forall a, touches_only ok (k a)) ->
  touches_only ok (bind m k).
Proof.
  intros Hm Hk s. specialize (Hm s). unfold bind, outcome in *.
  destruct (m s) as [e1 [a s1|c s1|]]; cbn [snd final_state] in *; auto.
  specialize (Hk a s1). unfold outcome in Hk.
  destruct (k a s1) as [e2 [b s2|c s2|]]; cbn [snd final_state] in *; auto;
    intros path Hp; rewrite Hk, Hm; auto.
Qed.

Lemma touches_same_files {A} ok (m : M A) :
  (forall s, match final_state (outcome (m s)) with
             | Some s' => fs s' = fs s
             | None => True
             end) ->
  touches_only ok m.
Proof.
  intros H s. specialize (H s).
  destruct (final_state (outcome (m s))); [|exact I].
  intros path _. now rewrite H.
Qed.

Lemma touches_write_file (ok : string -> Prop) path data :
  ok path -> touches_only ok (write_file path data).
Proof.
  intros Hok s. cbn. intros p Hp. apply lookup_insert_ne. congruence.
Qed.

Lemma touches_returns {A} ok (m : M A) : returns m -> touches_only ok m.
Proof.
  intros H. apply touches_same_files. intros s.
  destruct (H s) as (evs & a & s' & -> & Hfs & _). exact Hfs.
Qed.

(** One step of an argument about the files a computation may change. *)
Ltac frame_step :=
  first
    [ apply touches_bind; [|intros ?]
    | apply touches_same_files; intros ?; reflexivity
    | apply touches_write_file; solve [eauto]
    | match goal with
      | |- touches_only _ (if ?b then _ else _) => destruct b
      | |- touches_only _ (match ?x with _ => _ end) => destruct x
      | |- touches_only _ (let '(_, _) := ?x in _) => destruct x
      end ].

Lemma image_file_ordinal (i : Z) : ordinal_file (image_file i).
Proof. exists i. now left. Qed.

Lemma gray_file_ordinal (i : Z) : ordinal_file (gray_file i).
Proof. exists i. now right. Qed.

Lemma touches_toGrayscale (w : World) (tx : Texts) (i : Z) :
  touches_only ordinal_file (toGrayscale w tx (image_file i) (gray_file i)).
Proof.
  pose proof (gray_file_ordinal i). unfold toGrayscale, cerr.
  repeat frame_step.
Qed.

Lemma returns_check_accessible (w : World) n urls acc :
  returns (check_accessible w n urls acc).
Proof.
  intros s. destruct (check_accessible_spec w n urls acc s)
    as (evs & new & s' & H & Hfs & Hclk & _). eauto 6.
Qed.

Lemma touches_single_pass_generate (w : World) apiKey n :
  touches_only ordinal_file (SinglePass.generateImageUrls w apiKey n).
Proof.
  apply touches_returns. unfold SinglePass.generateImageUrls, cerr.
  repeat first
    [ apply returns_postToGemini | apply returns_extractTextFromGemini
    | apply returns_check_accessible | step ].
Qed.

Lemma touches_looping_generate (w : World) (tx : Texts) fuel apiKey n acc :
  touches_only ordinal_file
    (Looping.generateImageUrls_from w tx fuel apiKey n acc).
Proof.
  revert acc. induction fuel as [|fuel IH]; intros acc;
    cbn [Looping.generateImageUrls_from];
    destruct (size acc <? size_t_of_int n);
    try (apply touches_same_files; intros ?; reflexivity).
  apply touches_bind; [|intros ?; apply IH].
  apply touches_returns. intros s.
  destruct (cycle_spec w tx apiKey n acc s)
    as (evs & new & s' & H & Hfs & Hclk & _). eauto 6.
Qed.

Lemma touches_single_pass_items (w : World) urls i :
  touches_only ordinal_file (SinglePass.process_items w urls i).
Proof.
  revert i. induction urls as [|url rest IH]; intros i;
    cbn [SinglePass.process_items]; [repeat frame_step|].
  frame_step; [|apply IH].
  pose proof (image_file_ordinal i).
  unfold SinglePass.process_item, SinglePass.downloadImage, cout, cerr.
  repeat first [apply touches_toGrayscale | frame_step].
Qed.

Lemma touches_looping_items (w : World) (tx : Texts) urls i :
  touches_only ordinal_file (Looping.process_items w tx urls i).
Proof.
  revert i. induction urls as [|url rest IH]; intros i;
    cbn [Looping.process_items]; [repeat frame_step|].
  frame_step; [|apply IH].
  pose proof (image_file_ordinal i).
  unfold Looping.process_item, Looping.downloadImage.
  repeat first [apply touches_toGrayscale | frame_step].
Qed.

Lemma credential_not_ordinal : ~ ordinal_file APIKEY_FILE.
Proof.
  intros [j [H|H]]; unfold image_file, gray_file, IMAGES_DIR, GSIMAGES_DIR,
    APIKEY_FILE in H; rewrite ?append_cons in H; discriminate.
Qed.

(** X13: Whenever a run of [main] ends, by return or by [exit], every file
    other than a downloaded image [images/<k>.jpg] or its twin
    [gs-images/<k>.jpg] holds what it held before; the credential file is
    among them. *)
Theorem main_touches_only_image_files (w : World) (tx : Texts) (fuel : nat)
  (argv : list string) (s : State) :
  touches_only ordinal_file (SinglePass.main w) /\
  touches_only ordinal_file (Looping.main w tx fuel argv) /\
  ~ ordinal_file APIKEY_FILE /\
  match final_state (outcome (Looping.main w tx fuel argv s)) with
  | Some s' => fs s' !! APIKEY_FILE = fs s !! APIKEY_FILE
  | None => True
  end.
Proof.
  assert (H1 : touches_only ordinal_file (SinglePass.main w)).
  { unfold SinglePass.main, cerr.
    repeat first
      [ apply touches_single_pass_generate | apply touches_single_pass_items
      | apply touches_returns; apply returns_makeDir
      | frame_step ]. }
  assert (H2 : touches_only ordinal_file (Looping.main w tx fuel argv)).
  { unfold Looping.main, cerr, Looping.generateImageUrls.
    repeat first
      [ apply touches_looping_generate | apply touches_looping_items
      | apply touches_returns; apply returns_makeDir
      | frame_step ]. }
  split_and!; [exact H1 | exact H2 | exact credential_not_ordinal |].
  specialize (H2 s).
  destruct (final_state (outcome (Looping.main w tx fuel argv s))); [|exact I].
  apply H2, credential_not_ordinal.
Qed.

Section SinglePassBatch.

Context (w : World).

Lemma single_pass_item_done (url : string) (i : Z) (s : State) :
  exists evs s',
    SinglePass.process_item w url i s = (evs, Done tt s') /\
    handled evs url (image_file i).
Proof.
  unfold SinglePass.process_item, handled.
  destruct (curl_easy_init w (clock s)) eqn:Hinit;
    [destruct (fopen_wb w (S (clock s)) (image_file i)) eqn:Hopen|].
  - destruct (perform_get w (S (S (clock s))) url) as [res data] eqn:Hget.
    assert (Hrun : SinglePass.downloadImage w url (image_file i) s
                   = ([EvGet url (image_file i) res],
                      Done (res =? CURLE_OK)
                           (downloaded s (image_file i) data)))
      by (now rewrite single_pass_download_run, Hinit, Hopen, Hget).
    rewrite (bind_done _ _ _ _ _ _ Hrun).
    destruct (res =? CURLE_OK).
    + unfold bind, cout, emit. rewrite toGrayscale_run. cbv zeta.
      destruct (Cv.empty _); cbn; eexists _, _; (split; [reflexivity|]);
        left; exists res; now left.
    + cbn. eexists _, _. split; [reflexivity|]. left. exists res. now left.
  - assert (Hrun : SinglePass.downloadImage w url (image_file i) s
                   = ([], Done false (mkState (S (S (clock s))) (fs s))))
      by (now rewrite single_pass_download_run, Hinit, Hopen).
    rewrite (bind_done _ _ _ _ _ _ Hrun). cbn.
    eexists _, _. split; [reflexivity|]. right. now left.
  - assert (Hrun : SinglePass.downloadImage w url (image_file i) s
                   = ([], Done false (mkState (S (clock s)) (fs s))))
      by (now rewrite single_pass_download_run, Hinit).
    rewrite (bind_done _ _ _ _ _ _ Hrun). cbn.
    eexists _, _. split; [reflexivity|]. right. now left.
Qed.

Lemma handled_app_l evs evs' url file :
  handled evs url file -> handled (evs ++ evs') url file.
Proof.
  intros [[res H]|H]; [left; exists res|right]; apply in_or_app; now left.
Qed.

Lemma handled_app_r evs evs' url file :
  handled evs' url file -> handled (evs ++ evs') url file.
Proof.
  intros [[res H]|H]; [left; exists res|right]; apply in_or_app; now right.
Qed.

Lemma single_pass_items_done (urls : list string) (i : Z) (s : State) :
  exists evs s',
    SinglePass.process_items w urls i s = (evs, Done tt s') /\
    forall (j : nat) url,
      urls !! j = Some url ->
      handled evs url (image_file (i + Z.of_nat j)).
Proof.
  revert i s. induction urls as [|u rest IH]; intros i s.
  - exists [], s. split; [reflexivity|]. intros j url H. discriminate.
  - cbn [SinglePass.process_items].
    destruct (single_pass_item_done u i s) as (e1 & s1 & Hitem & Hh).
    destruct (IH (i + 1) s1) as (e2 & s2 & Hrest & Hall).
    exists (e1 ++ e2), s2.
    rewrite (bind_done _ _ _ _ _ _ Hitem), Hrest. split; [reflexivity|].
    intros [|j] url Hj.
    + injection Hj as <-. rewrite Z.add_0_r. now apply handled_app_l.
    + apply handled_app_r.
      replace (i + Z.of_nat (S j)) with (i + 1 + Z.of_nat j) by lia.
      now apply Hall.
Qed.

End SinglePassBatch.

(** X14: In the single pass no download that fails ends the batch: the loop
    over the URLs has no way out but its end, and whenever it has ended, for
    the URL at every position a transfer into the file of that position was
    made or its failure was logged, whatever happened to the items before
    it.  (A transfer that never returns is no end of the loop.) *)
Theorem single_pass_handles_every_item (w : World) (urls : list string)
  (s : State) :
  match outcome (SinglePass.process_items w urls 0 s) with
  | Done _ _ =>
      forall (j : nat) url,
        urls !! j = Some url ->
        handled (events (SinglePass.process_items w urls 0 s)) url
                (image_file (Z.of_nat j))
  | Exited _ _ => False
  | Diverged => True
  end.
Proof.
  destruct (single_pass_items_done w urls 0 s) as (evs & s' & Hrun & Hall).
  rewrite Hrun. cbn [outcome events fst snd].
  intros j url Hj. now apply (Hall j url) in Hj.
Qed.

Lemma single_pass_main_done (w : World) (s : State) (content : string) :
  fs s !! APIKEY_FILE = Some content ->
  exists evs s', SinglePass.main w s = (evs, Done 0 s').
Proof.
  intros Hkey. unfold SinglePass.main. rewrite bind_read_file.
  change "googleai.key" with APIKEY_FILE. rewrite Hkey.
  rewrite (bind_done _ _ _ _ _ _ (makeDir_run w "images" s)).
  rewrite (bind_done _ _ _ _ _ _ (makeDir_run w "gs-images" _)).
  destruct (single_pass_spec w (read_key content) 2
              (mkState (S (S (clock s))) (fs s)))
    as (e3 & urls & s3 & Hgen & _).
  cbn [clock fs] in *.
  rewrite (bind_done _ _ _ _ _ _ Hgen).
  destruct (single_pass_items_done w urls 0 s3) as (e4 & s4 & Hitems & _).
  rewrite (bind_done _ _ _ _ _ _ Hitems). cbn. eauto.
Qed.

(** X15: Whenever [main] of the single pass has ended, its status is 0 if
    the credential file was there and 1 if it was not: no failure of a
    request, a probe, a download or a conversion changes the exit status,
    and nothing in it calls [exit]. *)
Theorem single_pass_exits_zero (w : World) (s : State) :
  match exit_status (outcome (SinglePass.main w s)) with
  | Some status =>
      (status = 0 /\ is_Some (fs s !! APIKEY_FILE)) \/
      (status = 1 /\ fs s !! APIKEY_FILE = None)
  | None => True
  end.
Proof.
  destruct (fs s !! APIKEY_FILE) as [content|] eqn:Hkey.
  - destruct (single_pass_main_done w s content Hkey) as (evs & s' & ->).
    left. split; [reflexivity | eauto].
  - unfold SinglePass.main. rewrite bind_read_file.
    change "googleai.key" with APIKEY_FILE. rewrite Hkey.
    right. split; reflexivity.
Qed.

Section LoopingBatch.

Context (w : World) (tx : Texts).

Lemma loop_never_exits fuel apiKey n acc s :
  match outcome (Looping.generateImageUrls_from w tx fuel apiKey n acc s) with
  | Exited _ _ => False
  | _ => True
  end.
Proof.
  revert acc s. induction fuel as [|fuel IH]; intros acc s;
    cbn [Looping.generateImageUrls_from];
    destruct (size acc <? size_t_of_int n); try exact I.
  destruct (cycle_spec w tx apiKey n acc s) as (evs & new & s' & Hc & _).
  rewrite (bind_done _ _ _ _ _ _ Hc). cbn [outcome snd]. apply IH.
Qed.

Lemma looping_item_outcome url i s :
  match outcome (Looping.process_item w tx url i s) with
  | Done _ _ => True
  | Exited c _ => c = 1
  | Diverged => False
  end.
Proof.
  unfold Looping.process_item, bind, outcome.
  rewrite looping_download_run.
  destruct (curl_easy_init w (clock s)); [|reflexivity].
  destruct (fopen_wb w (S (clock s)) (image_file i)); [|reflexivity].
  destruct (perform_get w (S (S (clock s))) url) as [res data].
  rewrite toGrayscale_run. cbv zeta. now destruct (Cv.empty _).
Qed.

Lemma looping_items_outcome urls i s :
  match outcome (Looping.process_items w tx urls i s) with
  | Done _ _ => True
  | Exited c _ => c = 1
  | Diverged => False
  end.
Proof.
  revert i s. induction urls as [|url rest IH]; intros i s; [exact I|].
  cbn [Looping.process_items]. unfold bind, outcome.
  pose proof (looping_item_outcome url i s) as Hitem. unfold outcome in Hitem.
  destruct (Looping.process_item w tx url i s) as [e1 [a s1|c s1|]];
    cbn [snd] in *; auto.
  specialize (IH (i + 1) s1). unfold outcome in IH.
  destruct (Looping.process_items w tx rest (i + 1) s1) as [e2 r2].
  exact IH.
Qed.

End LoopingBatch.

(** X16: Whenever [main] of the looping variants has ended, its status is 0
    or 1 and no other, and status 0 needs the credential file and exactly
    one argument.  A run that has not ended is past both checks. *)
Theorem looping_exit_status (w : World) (tx : Texts) (fuel : nat)
  (argv : list string) (s : State) :
  match exit_status (outcome (Looping.main w tx fuel argv s)) with
  | Some status =>
      (status = 0 /\ is_Some (fs s !! APIKEY_FILE) /\ size argv = 2) \/
      status = 1
  | None => is_Some (fs s !! APIKEY_FILE) /\ size argv = 2
  end.
Proof.
  unfold Looping.main. rewrite bind_read_file.
  destruct (fs s !! APIKEY_FILE) as [content|] eqn:Hkey; [|now right].
  rewrite (bind_done _ _ _ _ _ _ (makeDir_run w IMAGES_DIR s)).
  rewrite (bind_done _ _ _ _ _ _ (makeDir_run w GSIMAGES_DIR _)).
  cbn [outcome snd fst].
  destruct (size argv =? 2) eqn:Hargc; [|now right].
  apply Z.eqb_eq in Hargc. unfold bind, Looping.generateImageUrls.
  match goal with
  | |- context [Looping.generateImageUrls_from w tx fuel ?k ?n [] ?s0] =>
      pose proof (loop_never_exits w tx fuel k n [] s0) as Hloop;
      unfold outcome in Hloop;
      destruct (Looping.generateImageUrls_from w tx fuel k n [] s0)
        as [e1 [urls s1|c s1|]]; cbn [snd] in *
  end; [|contradiction|cbn; eauto].
  pose proof (looping_items_outcome w tx urls 0 s1) as Hitems.
  unfold outcome in Hitems.
  destruct (Looping.process_items w tx urls 0 s1) as [e2 [a s2|c s2|]];
    cbn [snd exit_status] in *; [left; eauto | now right | contradiction].
Qed.

(** ** File names, the count on the command line, the write callback *)

Lemma append_length (a b : string) :
  String.length (a +:+ b) = (String.length a + String.length b)%nat.
Proof.
  induction a as [|c a IH]; [reflexivity|].
  rewrite append_cons. cbn [String.length]. now rewrite IH.
Qed.

Lemma append_inj_l (p a b : string) : p +:+ a = p +:+ b -> a = b.
Proof.
  induction p as [|c p IH]; [now rewrite !append_nil_l|].
  rewrite !append_cons. intros H. injection H as H. now apply IH.
Qed.

Lemma append_inj_r (a b c : string) : a +:+ c = b +:+ c -> a = b.
Proof.
  revert b. induction a as [|x a IH]; intros [|y b] H.
  - reflexivity.
  - apply (f_equal String.length) in H.
    rewrite append_nil_l, append_cons in H. cbn [String.length] in H.
    rewrite append_length in H. lia.
  - apply (f_equal String.length) in H.
    rewrite append_nil_l, append_cons in H. cbn [String.length] in H.
    rewrite append_length in H. lia.
  - rewrite !append_cons in H. injection H as -> H. f_equal. now apply IH.
Qed.

Lemma to_int_proper (z : Z) :
  Z.to_int z <> Decimal.Pos Decimal.Nil /\
  Z.to_int z <> Decimal.Neg Decimal.Nil.
Proof.
  destruct z as [|p|p]; cbn; split; try discriminate;
    intros H; injection H as H;
    now apply DecimalPos.Unsigned.to_uint_nonnil in H.
Qed.

Lemma of_Z_inj (a b : Z) : Str.of_Z a = Str.of_Z b -> a = b.
Proof.
  unfold Str.of_Z. intros H.
  apply (f_equal NilZero.int_of_string) in H.
  destruct (to_int_proper a) as [Ha1 Ha2], (to_int_proper b) as [Hb1 Hb2].
  rewrite !NilZero.isi in H by assumption.
  injection H as H. now apply DecimalZ.to_int_inj.
Qed.

(** X17: Every position of the batch has files of its own: two positions share
    neither their image file nor their grayscale file, and no image file is
    the grayscale file of any position. *)
Theorem ordinal_files_distinct (i j : Z) :
  (image_file i = image_file j <-> i = j) /\
  (gray_file i = gray_file j <-> i = j) /\
  image_file i <> gray_file j.
Proof.
  unfold image_file, gray_file. split_and!.
  - split; [|now intros ->]. intros H.
    apply append_inj_l, append_inj_r, of_Z_inj in H. lia.
  - split; [|now intros ->]. intros H.
    apply append_inj_l, append_inj_r, of_Z_inj in H. lia.
  - unfold IMAGES_DIR, GSIMAGES_DIR. rewrite !append_cons. discriminate.
Qed.

Lemma digits_stop (rest : string) (acc : Z) :
  ends_number rest -> Libc.digits rest acc = acc.
Proof.
  destruct rest as [|c rest]; [reflexivity|]. cbn [ends_number Libc.digits].
  now intros ->.
Qed.

Lemma digits_uint_acc (d : Decimal.uint) (p : positive) (rest : string) :
  ends_number rest ->
  Libc.digits (NilEmpty.string_of_uint d +:+ rest) (Z.pos p)
  = Z.pos (Pos.of_uint_acc d p).
Proof.
  intros Hrest. revert p.
  induction d as [|d IH|d IH|d IH|d IH|d IH|d IH|d IH|d IH|d IH|d IH];
    intros p; cbn [NilEmpty.string_of_uint Pos.of_uint_acc];
    [now rewrite append_nil_l, digits_stop|..];
    rewrite append_cons; cbn [Libc.digits];
    match goal with
    | |- context [Libc.isdigit ?c] => change (Libc.isdigit c) with true
    end; cbv iota;
    rewrite <- IH; f_equal;
    match goal with
    | |- context [Z.of_nat ?x] =>
        let v := eval vm_compute in (Z.of_nat x) in
        change (Z.of_nat x) with v
    end; lia.
Qed.

Lemma digits_uint (d : Decimal.uint) (rest : string) :
  ends_number rest ->
  Libc.digits (NilEmpty.string_of_uint d +:+ rest) 0
  = Z.of_N (Pos.of_uint d).
Proof.
  intros Hrest.
  induction d as [|d IH|d IH|d IH|d IH|d IH|d IH|d IH|d IH|d IH|d IH];
    cbn [NilEmpty.string_of_uint Pos.of_uint];
    [now rewrite append_nil_l, digits_stop|..];
    rewrite append_cons; cbn [Libc.digits];
    match goal with
    | |- context [Libc.isdigit ?c] => change (Libc.isdigit c) with true
    end; cbv iota;
    [exact IH|..];
    cbn [Z.of_N]; rewrite <- (digits_uint_acc d _ rest Hrest); reflexivity.
Qed.

Lemma digits_of_pos (p : positive) (rest : string) :
  ends_number rest ->
  Libc.digits (NilEmpty.string_of_uint (Pos.to_uint p) +:+ rest) 0 = Z.pos p.
Proof.
  intros Hrest. rewrite (digits_uint _ rest Hrest).
  now rewrite DecimalPos.Unsigned.of_to.
Qed.

Lemma uint_string_head (d : Decimal.uint) (rest : string) :
  d <> Decimal.Nil ->
  Libc.skip_spaces (NilEmpty.string_of_uint d +:+ rest)
  = NilEmpty.string_of_uint d +:+ rest /\
  Libc.split_sign (NilEmpty.string_of_uint d +:+ rest)
  = (false, NilEmpty.string_of_uint d +:+ rest).
Proof.
  destruct d; [congruence|..]; intros _; split; reflexivity.
Qed.

Lemma atoi_int_range (arg : string) : int_range (Libc.atoi arg).
Proof.
  unfold int_range, Libc.atoi, int_of_long, INT_MIN, INT_MAX.
  pose proof (Z.mod_pos_bound (Libc.strtol arg + 2 ^ 31) (2 ^ 32)). lia.
Qed.

Lemma atoi_decimal_text (n : Z) (rest : string) :
  int_range n -> ends_number rest ->
  Libc.atoi (Str.of_Z n +:+ rest) = n.
Proof.
  intros Hn Hrest.
  assert (Hlong : forall v, int_range v ->
            int_of_long (Z.max LONG_MIN (Z.min LONG_MAX v)) = v).
  { unfold int_range, INT_MIN, INT_MAX, LONG_MIN, LONG_MAX, int_of_long.
    intros v Hv. rewrite Z.max_r, Z.min_r by lia.
    rewrite Z.mod_small by lia. lia. }
  unfold Libc.atoi, Libc.strtol, Str.of_Z.
  destruct n as [|p|p]; cbn [Z.to_int NilZero.string_of_int].
  + change (NilZero.string_of_uint (Decimal.D0 Decimal.Nil))
      with (NilEmpty.string_of_uint (Decimal.D0 Decimal.Nil)).
    assert (Hd : Decimal.D0 Decimal.Nil <> Decimal.Nil) by discriminate.
    destruct (uint_string_head _ rest Hd) as [-> ->].
    rewrite (digits_uint _ rest Hrest). now apply (Hlong 0).
  + assert (Hd : Pos.to_uint p <> Decimal.Nil)
      by apply DecimalPos.Unsigned.to_uint_nonnil.
    assert (Hs : NilZero.string_of_uint (Pos.to_uint p)
                 = NilEmpty.string_of_uint (Pos.to_uint p))
      by (unfold NilZero.string_of_uint; now destruct (Pos.to_uint p)).
    rewrite Hs.
    destruct (uint_string_head (Pos.to_uint p) rest Hd) as [-> ->].
    rewrite (digits_of_pos p rest Hrest). now apply Hlong.
  + assert (Hd : Pos.to_uint p <> Decimal.Nil)
      by apply DecimalPos.Unsigned.to_uint_nonnil.
    assert (Hs : NilZero.string_of_uint (Pos.to_uint p)
                 = NilEmpty.string_of_uint (Pos.to_uint p))
      by (unfold NilZero.string_of_uint; now destruct (Pos.to_uint p)).
    rewrite Hs, append_cons.
    cbn [Libc.skip_spaces].
    change (Libc.isspace "-") with false. cbv iota.
    cbn [Libc.split_sign].
    change (Ascii.eqb "-" "-") with true. cbv iota.
    rewrite (digits_of_pos p rest Hrest). now apply Hlong.
Qed.

(** X18: What [atoi] returns always fits an [int].  And it reads back a count
    written in decimal: for every [int] value, its decimal text, followed by
    nothing or by text that does not go on with a digit, converts to that
    value; what follows the number is ignored, not rejected. *)
Theorem atoi_of_decimal (arg : string) :
  int_range (Libc.atoi arg) /\
  forall n rest,
    int_range n -> ends_number rest -> arg = Str.of_Z n +:+ rest ->
    Libc.atoi arg = n.
Proof.
  split; [apply atoi_int_range|].
  intros n rest Hn Hrest ->. now apply atoi_decimal_text.
Qed.

Lemma atoi_of_decimal_witness :
  int_range (Libc.atoi "42abc") /\ Libc.atoi "42abc" = 42.
Proof.
  assert (Hn : int_range 42) by (unfold int_range, INT_MIN, INT_MAX; lia).
  destruct (atoi_of_decimal "42abc") as [Hr Hrt].
  exact (conj Hr (Hrt 42 "abc" Hn eq_refl eq_refl)).
Defined.

(** X19: The write callback loses nothing: blocks handed over one after the
    other end up in the string in that order, after what the string held
    before, and every call reports all of its bytes as handled, so that
    libcurl never sees a short write. *)
Theorem deliver_appends_all (blocks : list string) (userp : string) :
  deliver blocks userp = (userp +:+ concat_strings blocks, true).
Proof.
  revert userp. induction blocks as [|b rest IH]; intros userp.
  - cbn. now rewrite append_nil_r.
  - cbn [deliver concat_strings]. unfold WriteCallback.
    rewrite Z.mul_1_l, Nat2Z.id.
    assert (Hsub : forall s, String.substring 0 (String.length s) s = s).
    { induction s as [|c s IHs]; [reflexivity|]. cbn. now rewrite IHs. }
    rewrite Hsub, IH, Z.eqb_refl, append_assoc. reflexivity.
Qed.

(** ** Requests *)

Lemma has_char_app (c : ascii) (a b : string) :
  has_char c (a +:+ b) = (has_char c a || has_char c b)%bool.
Proof.
  induction a as [|x a IH]; [reflexivity|].
  rewrite append_cons. cbn [has_char]. now rewrite IH, orb_assoc.
Qed.

Lemma c_str_app (p k : string) :
  has_char "000" p = false -> c_str (p +:+ k) = p +:+ c_str k.
Proof.
  induction p as [|x p IH]; intros H; [reflexivity|].
  cbn [has_char] in H. apply orb_false_iff in H as [Hx Hp].
  rewrite !append_cons. cbn [c_str]. now rewrite Hx, (IH Hp).
Qed.

Lemma c_str_id (s : string) : has_char "000" s = false -> c_str s = s.
Proof.
  intros H. rewrite <- (append_nil_r s) at 1.
  rewrite (c_str_app s "" H). apply append_nil_r.
Qed.

Lemma endpoint_no_nul : has_char "000" ENDPOINT = false.
Proof. reflexivity. Qed.

(** X20: A request changes no file and never calls [exit].  Whenever it has
    returned, what it returns is not empty only when curl started and the
    one transfer it made, of the prompt wrapped as the single user part,
    with the endpoint string ending with the key, ended with [CURLE_OK]:
    then it is the body received.  The body of a transfer that ended with an
    error is dropped, the error logged and the empty string returned.  Of
    the string it hands over libcurl reads the endpoint and the key up to
    the key's first NUL byte. *)
Theorem postToGemini_contract (w : World) (apiKey prompt : string)
  (s : State) :
  match postToGemini w apiKey prompt s with
  | (evs, Done body s') =>
      fs s' = fs s /\
      (body <> "" ->
       curl_easy_init w (clock s) = true /\
       perform_post w (S (clock s)) (ENDPOINT +:+ apiKey)
         (request_body prompt) = (CURLE_OK, body) /\
       evs = [EvPost (ENDPOINT +:+ apiKey) (request_body prompt) CURLE_OK]) /\
      (forall res partial,
         curl_easy_init w (clock s) = true ->
         perform_post w (S (clock s)) (ENDPOINT +:+ apiKey)
           (request_body prompt) = (res, partial) ->
         res <> CURLE_OK ->
         body = "" /\
         evs = [EvPost (ENDPOINT +:+ apiKey) (request_body prompt) res;
                EvStderr ("Error in request: "
                          +:+ curl_easy_strerror w res)])
  | (_, Exited _ _) => False
  | (_, Diverged) => True
  end /\
  c_str (ENDPOINT +:+ apiKey) = ENDPOINT +:+ c_str apiKey.
Proof.
  split; [|apply c_str_app, endpoint_no_nul].
  unfold postToGemini, bind, tick, emit, cerr, ret. cbn [clock fs].
  destruct (curl_easy_init w (clock s)); cbn [negb clock fs].
  - destruct (perform_post w (S (clock s)) (ENDPOINT +:+ apiKey)
                (request_body prompt)) as [res buf] eqn:Hp.
    destruct (res =? CURLE_OK) eqn:Hres; cbn [negb app fst snd].
    + apply Z.eqb_eq in Hres. subst res. cbn [fs].
      split_and!; [reflexivity | now intros _ |].
      intros res partial _ H Hne. now injection H as <- _.
    + cbn [fs]. split_and!; [reflexivity | congruence |].
      intros res' partial _ H _. now injection H as <- _.
  - cbn [fs]. split_and!; [reflexivity | congruence | discriminate].
Qed.

(** X21: When the generation phase yields no text, the single pass gives up at
    once: it logs that the text was empty and returns no URL, without
    sending the extraction request and without probing anything. *)
Theorem single_pass_early_return (w : World) (apiKey : string) (n : Z)
  (s : State) evs s1 :
  generation_phase w apiKey n s = (evs, Done "" s1) ->
  SinglePass.generateImageUrls w apiKey n s
  = (evs ++ [EvStderr "Gemini generation returned empty text."], Done [] s1).
Proof.
  intros H. unfold generation_phase in H.
  unfold SinglePass.generateImageUrls. rewrite <- bind_assoc.
  rewrite (bind_done _ _ _ _ _ _ H). reflexivity.
Qed.

Lemma single_pass_early_return_witness :
  SinglePass.generateImageUrls mute "K" 2 boot
  = ([EvPost (ENDPOINT +:+ "K")
        (request_body (SinglePass.generationPrompt 2)) CURLE_OK]
       ++ [EvStderr "Gemini generation returned empty text."],
     Done [] (mkState 2 ∅)).
Proof.
  apply (single_pass_early_return mute "K" 2 boot). vm_compute. reflexivity.
Defined.

(** * The harvester, the argument and the key, variant by variant *)

Lemma bind_in_l {A B} (m : M A) (k : A -> M B) (s : State) (e : event) :
  In e (events (m s)) -> In e (events (bind m k s)).
Proof.
  unfold events, bind. destruct (m s) as [e1 [a s1|c s1|]]; cbn [fst]; auto.
  intros H. destruct (k a s1) as [e2 r]. cbn [fst]. apply in_or_app. now left.
Qed.

Lemma bind_in_r {A B} (m : M A) (k : A -> M B) (s : State) (e : event)
  e1 a s1 :
  m s = (e1, Done a s1) -> In e (events (k a s1)) ->
  In e (events (bind m k s)).
Proof.
  intros Hm H. rewrite (bind_done _ _ _ _ _ _ Hm). unfold events in *.
  cbn [fst]. apply in_or_app. now right.
Qed.

Lemma postToGemini_sends (w : World) (apiKey prompt : string) (s : State) :
  curl_easy_init w (clock s) = true ->
  exists res,
    In (EvPost (ENDPOINT +:+ apiKey) (request_body prompt) res)
       (events (postToGemini w apiKey prompt s)).
Proof.
  intros Hinit. unfold postToGemini, bind, tick, emit, cerr, ret, events.
  cbn [clock fs]. rewrite Hinit. cbn [negb clock fs].
  destruct (perform_post w (S (clock s)) _ _) as [res buf].
  exists res. destruct (res =? CURLE_OK); cbn; now left.
Qed.

Lemma single_pass_main_phases (w : World) (s : State) (content : string) :
  fs s !! APIKEY_FILE = Some content ->
  SinglePass.main w s =
  bind (single_pass_harvest_phase w content)
       (fun imageUrls => SinglePass.process_items w imageUrls 0 ;;; ret 0)%prog
       s.
Proof.
  intros Hkey. unfold SinglePass.main, single_pass_harvest_phase.
  rewrite bind_read_file. change "googleai.key" with APIKEY_FILE.
  rewrite Hkey. rewrite bind_assoc. apply bind_ext. intros _ s1.
  now rewrite bind_assoc.
Qed.

(** C1: the harvester keeps to the count it is asked for, at every count a
    run asks for.  The looping variants, which take the count from the
    command line: for every count from 0 to [INT_MAX], a returned list has at
    most that many URLs.  The single pass, whose [main] asks for 2 and for
    nothing else: for every count from 1 to [INT_MAX], 2 among them, a
    returned list has at most that many URLs.  In both, every returned URL
    passed the liveness check at a moment of the run: the probe made then
    with it (read by libcurl up to its first NUL byte) answered [CURLE_OK]
    and 200. *)
Theorem harvest_keeps_to_count (w : World) (tx : Texts) (apiKey : string)
  (s : State) :
  (forall fuel n evs urls s',
     0 <= n <= INT_MAX ->
     Looping.generateImageUrls w tx fuel apiKey n s = (evs, Done urls s') ->
     size urls <= n /\
     Forall (passed_check w evs (clock s) (clock s')) urls) /\
  (forall n evs urls s',
     1 <= n <= INT_MAX ->
     SinglePass.generateImageUrls w apiKey n s = (evs, Done urls s') ->
     size urls <= n /\
     Forall (passed_check w evs (clock s) (clock s')) urls) /\
  (forall content,
     fs s !! APIKEY_FILE = Some content ->
     SinglePass.main w s =
     bind (single_pass_harvest_phase w content)
          (fun imageUrls =>
             SinglePass.process_items w imageUrls 0 ;;; ret 0)%prog
          s).
Proof.
  split_and!.
  - intros fuel n evs urls s' Hn Hrun.
    exact (proj1 (harvest_within_count w tx apiKey n s) fuel evs urls s' Hn Hrun).
  - intros n evs urls s' Hn Hrun.
    exact (proj2 (harvest_within_count w tx apiKey n s) evs urls s' Hn Hrun).
  - intros content Hkey. now apply single_pass_main_phases.
Qed.

Lemma harvest_keeps_to_count_witness :
  1 <= 2 <= INT_MAX /\
  size ["http://a/1.jpg"; "http://c/3.png"] <= 2 /\
  Forall (passed_check two_alive
            (events (SinglePass.generateImageUrls two_alive "K" 2 boot)) 0 10)
         ["http://a/1.jpg"; "http://c/3.png"].
Proof.
  assert (Hn : 1 <= 2 <= INT_MAX) by (unfold INT_MAX; lia).
  split; [exact Hn|].
  apply (proj1 (proj2 (harvest_keeps_to_count two_alive SinglePass.texts "K"
                         boot))
           2 _ _ (mkState 10 ∅) Hn).
  vm_compute. reflexivity.
Defined.

(** C2, as the code has it.  In the looping variants the harvester hands
    back a list exactly when some number [k] of whole generate, extract and
    filter cycles, run one after the other from the empty list, has brought
    the accepted total to the requested count, every shorter run leaving it
    short: it repeats while short and stops only at the count, and [k] has
    no bound of the program's own; a cycle keeps what was accepted before it
    and appends to it; nothing is deduplicated; and where no probe ever
    succeeds the loop, asked for at least one image, does not come back.
    The single pass has no loop: it sends the two requests at most once
    each and returns what one pass accepted, be it short of the count. *)
Theorem retry_policy_per_variant :
  (forall w tx fuel apiKey numimages s evs urls s',
     0 <= numimages <= INT_MAX ->
     Looping.generateImageUrls w tx fuel apiKey numimages s
       = (evs, Done urls s') <->
     exists k,
       (k <= fuel)%nat /\
       cycles w tx k apiKey numimages [] s = (evs, Done urls s') /\
       size urls = numimages /\
       (forall j ej uj sj, (j < k)%nat ->
          cycles w tx j apiKey numimages [] s = (ej, Done uj sj) ->
          size uj < numimages)) /\
  (forall w tx apiKey numimages image_urls s,
     exists evs new s',
       Looping.cycle w tx apiKey numimages image_urls s
         = (evs, Done (image_urls ++ new) s')) /\
  (exists evs s',
     Looping.generateImageUrls always_a Looping.texts_000 2 "K" 2 boot
     = (evs, Done ["http://a/1.jpg"; "http://a/1.jpg"] s')) /\
  (forall w tx fuel apiKey numimages s,
     0 < numimages <= INT_MAX ->
     never_alive w ->
     outcome (Looping.generateImageUrls w tx fuel apiKey numimages s)
     = Diverged) /\
  (forall w apiKey numImages s,
     (count_posts (events (SinglePass.generateImageUrls w apiKey numImages s))
      <= 2)%nat) /\
  (exists evs s',
     SinglePass.generateImageUrls one_alive "K" 2 boot
     = (evs, Done ["http://a/1.jpg"] s') /\
     count_posts evs = 2%nat).
Proof.
  destruct retry_policy as (H1 & H2 & H3 & H4).
  split_and!; [exact H1 | exact H2 | exact H3 | exact H4 | |].
  - intros w apiKey n s.
    destruct (single_pass_decompose w apiKey n s)
      as (pre & cands & s4 & e5 & urls & s5 & Hrun & Hpre & _ & Hchk).
    rewrite Hrun. cbn [events fst].
    destruct (check_accessible_spec w n cands [] s4)
      as (e5' & new & s5' & Hchk' & _ & _ & Hprobes & _).
    rewrite Hchk in Hchk'. injection Hchk' as -> _ _.
    rewrite count_posts_app, (count_posts_probes _ Hprobes). lia.
  - eexists _, _. split; vm_compute; reflexivity.
Qed.

Lemma retry_policy_per_variant_witness :
  exists k,
    (k <= 2)%nat /\
    cycles always_a Looping.texts_000 k "K" 2 [] boot
      = (events (Looping.generateImageUrls always_a Looping.texts_000 2 "K" 2
                   boot),
         Done ["http://a/1.jpg"; "http://a/1.jpg"] (mkState 12 ∅)) /\
    size ["http://a/1.jpg"; "http://a/1.jpg"] = 2 /\
    (forall j ej uj sj, (j < k)%nat ->
       cycles always_a Looping.texts_000 j "K" 2 [] boot = (ej, Done uj sj) ->
       size uj < 2).
Proof.
  assert (Hn : 0 <= 2 <= INT_MAX) by (unfold INT_MAX; lia).
  apply (proj1 (proj1 retry_policy_per_variant always_a Looping.texts_000
                  2%nat "K" 2 boot _ _ _ Hn)).
  vm_compute. reflexivity.
Defined.

(** C2 as the claim has it fails on src/imageprocessing.cpp: asked for 2
    images where one candidate is alive, the single pass returns that one
    URL and does not start over. *)
Lemma single_pass_returns_short :
  ~ (forall w apiKey n s evs urls s',
       0 <= n <= INT_MAX ->
       SinglePass.generateImageUrls w apiKey n s = (evs, Done urls s') ->
       size urls = n).
Proof.
  intros H.
  assert (Hn : 0 <= 2 <= INT_MAX) by (unfold INT_MAX; lia).
  assert (Hrun : exists evs s',
            SinglePass.generateImageUrls one_alive "K" 2 boot
            = (evs, Done ["http://a/1.jpg"] s'))
    by (eexists _, _; vm_compute; reflexivity).
  destruct Hrun as (evs & s' & Hrun).
  specialize (H one_alive "K" 2 boot evs ["http://a/1.jpg"] s' Hn Hrun).
  vm_compute in H. discriminate H.
Qed.

(** C5, as the code has it: with the credential file in place, a run
    without exactly one argument prints the usage message and returns 1,
    having made no network call.  A run whose argument has no digit where
    its number would start (after white space and one sign) converts it to
    0, asks the harvester for 0 images, makes no network call and returns
    0.  A run whose argument is the decimal text of an [int] followed by
    anything that does not go on with a digit converts it to that number
    and is the run for that number: what follows the number is ignored. *)
Theorem argument_handling (w : World) (tx : Texts) (fuel : nat)
  (argv : list string) (s : State) (content : string) :
  fs s !! APIKEY_FILE = Some content ->
  (size argv <> 2 ->
   exists evs s',
     Looping.main w tx fuel argv s
       = (evs ++ [EvStderr "Error: the number of images to process is missing."],
          Done 1 s') /\
     Forall offline evs) /\
  (forall prog arg,
     argv = [prog; arg] -> Libc.non_numeric arg = true ->
     Libc.atoi arg = 0 /\
     exists evs s',
       Looping.main w tx fuel argv s = (evs, Done 0 s') /\
       Forall offline evs) /\
  (forall prog arg n rest,
     argv = [prog; arg] ->
     int_range n -> ends_number rest -> arg = Str.of_Z n +:+ rest ->
     Libc.atoi arg = n /\
     Looping.main w tx fuel argv s
     = Looping.main w tx fuel [prog; Str.of_Z n] s).
Proof.
  intros Hkey.
  destruct (argument_without_number w tx fuel argv s content Hkey) as [H1 H2].
  split_and!; [exact H1 | exact H2 |].
  intros prog arg n rest -> Hn Hrest ->.
  pose proof (atoi_decimal_text n rest Hn Hrest) as Ha.
  pose proof (atoi_decimal_text n "" Hn I) as Hb.
  rewrite append_nil_r in Hb.
  split; [exact Ha|].
  unfold Looping.main. cbn [nth]. rewrite Ha, Hb. reflexivity.
Qed.

Lemma argument_handling_witness :
  Libc.atoi "2 images" = 2 /\
  Looping.main two_alive Looping.texts_000 1 ["imageprocessing"; "2 images"]
    keyed_boot
  = Looping.main two_alive Looping.texts_000 1 ["imageprocessing"; "2"]
      keyed_boot.
Proof.
  assert (Hn : int_range 2) by (unfold int_range, INT_MIN, INT_MAX; lia).
  exact (proj2 (proj2 (argument_handling two_alive Looping.texts_000 1
                         ["imageprocessing"; "2 images"] keyed_boot _ eq_refl))
               "imageprocessing" "2 images" 2 " images"
               eq_refl Hn eq_refl eq_refl).
Defined.

Section KeyIsSent.

Context (w : World).

Lemma single_pass_harvest_sends (apiKey : string) (n : Z) (s : State) :
  curl_easy_init w (clock s) = true ->
  exists res,
    In (EvPost (ENDPOINT +:+ apiKey)
          (request_body (SinglePass.generationPrompt n)) res)
       (events (SinglePass.generateImageUrls w apiKey n s)).
Proof.
  intros Hinit.
  destruct (postToGemini_sends w apiKey (SinglePass.generationPrompt n) s Hinit)
    as [res Hin].
  exists res. unfold SinglePass.generateImageUrls. now apply bind_in_l.
Qed.

Lemma looping_harvest_sends (tx : Texts) (fuel : nat) (apiKey : string)
  (n : Z) (s : State) :
  curl_easy_init w (clock s) = true ->
  n <> 0 -> int_range n -> fuel <> 0%nat ->
  exists res,
    In (EvPost (ENDPOINT +:+ apiKey)
          (request_body (Looping.generationPrompt n)) res)
       (events (Looping.generateImageUrls w tx fuel apiKey n s)).
Proof.
  intros Hinit Hn Hr Hfuel.
  destruct (postToGemini_sends w apiKey (Looping.generationPrompt n) s Hinit)
    as [res Hin].
  exists res. destruct fuel as [|fuel]; [congruence|].
  unfold Looping.generateImageUrls. cbn [Looping.generateImageUrls_from].
  assert (Hguard : (size (@nil string) <? size_t_of_int n) = true).
  { apply Z.ltb_lt. unfold size. cbn [List.length Z.of_nat].
    unfold int_range, INT_MIN, INT_MAX in Hr.
    destruct (Z_lt_le_dec n 0).
    - rewrite size_t_of_negative by (unfold INT_MIN; lia). lia.
    - rewrite size_t_of_count by (unfold INT_MAX; lia). lia. }
  rewrite Hguard. apply bind_in_l. unfold Looping.cycle. now apply bind_in_l.
Qed.

End KeyIsSent.

(** C7: for a credential file whose first line is a key without NUL byte,
    ["ABC123\n"] for one, the key is that line without its newline, every
    other character kept as it is, blanks at its end included.  Every
    generation request of a run is made with the endpoint string ending in
    [key=] followed by exactly that key, and libcurl reads that string
    whole.  And the request is made: once the directories are seen to, when
    curl starts, the run sends the generation request with that string (in
    the looping variants when there is one argument, its number is not 0
    and the harvester is given a round). *)
Theorem credential_key_in_requests (w : World) (tx : Texts) (fuel : nat)
  (argv : list string) (s : State) (key rest : string) :
  has_char "010" key = false ->
  has_char "000" key = false ->
  fs s !! APIKEY_FILE = Some (key +:+ newline +:+ rest) ->
  read_key (key +:+ newline +:+ rest) = key /\
  (forall url body res,
     In (EvPost url body res) (events (SinglePass.main w s)) ->
     url = "https://generativelanguage.googleapis.com/v1beta/models/gemini-2.5-flash-lite:generateContent?key=" +:+ key /\
     c_str url = url) /\
  (forall url body res,
     In (EvPost url body res) (events (Looping.main w tx fuel argv s)) ->
     url = "https://generativelanguage.googleapis.com/v1beta/models/gemini-2.5-flash-lite:generateContent?key=" +:+ key /\
     c_str url = url) /\
  (curl_easy_init w (S (S (clock s))) = true ->
   exists res,
     In (EvPost ("https://generativelanguage.googleapis.com/v1beta/models/gemini-2.5-flash-lite:generateContent?key=" +:+ key)
           (request_body (SinglePass.generationPrompt 2)) res)
        (events (SinglePass.main w s))) /\
  (curl_easy_init w (S (S (clock s))) = true ->
   size argv = 2 -> Libc.atoi (nth 1 argv "") <> 0 -> fuel <> 0%nat ->
   exists res,
     In (EvPost ("https://generativelanguage.googleapis.com/v1beta/models/gemini-2.5-flash-lite:generateContent?key=" +:+ key)
           (request_body
              (Looping.generationPrompt (Libc.atoi (nth 1 argv ""))))
           res)
        (events (Looping.main w tx fuel argv s))).
Proof.
  intros Hnl Hnul Hfile.
  destruct (requests_carry_first_line w tx fuel argv s key rest Hnl Hfile)
    as (Hkey & Hsp & Hlp).
  assert (Hwhole : c_str (ENDPOINT +:+ key) = ENDPOINT +:+ key).
  { apply c_str_id. rewrite has_char_app, endpoint_no_nul, Hnul. reflexivity. }
  change ENDPOINT
    with "https://generativelanguage.googleapis.com/v1beta/models/gemini-2.5-flash-lite:generateContent?key="
    in Hwhole.
  split_and!.
  - exact Hkey.
  - intros url body res Hin. apply Hsp in Hin. subst url. now split.
  - intros url body res Hin. apply Hlp in Hin. subst url. now split.
  - intros Hinit.
    destruct (single_pass_harvest_sends w key 2
                (mkState (S (S (clock s))) (fs s)) Hinit) as [res Hin].
    exists res. unfold SinglePass.main. unfold events. rewrite bind_read_file.
    change "googleai.key" with APIKEY_FILE. rewrite Hfile, Hkey.
    apply (bind_in_r _ _ _ _ _ _ _ (makeDir_run w "images" s)).
    apply (bind_in_r _ _ _ _ _ _ _ (makeDir_run w "gs-images" _)).
    apply bind_in_l. exact Hin.
  - intros Hinit Hargc Hcount Hfuel.
    destruct (looping_harvest_sends w tx fuel key (Libc.atoi (nth 1 argv ""))
                (mkState (S (S (clock s))) (fs s)) Hinit Hcount
                (atoi_int_range _) Hfuel) as [res Hin].
    exists res. unfold Looping.main. unfold events. rewrite bind_read_file.
    rewrite Hfile, Hkey.
    apply (bind_in_r _ _ _ _ _ _ _ (makeDir_run w IMAGES_DIR s)).
    apply (bind_in_r _ _ _ _ _ _ _ (makeDir_run w GSIMAGES_DIR _)).
    rewrite Hargc. change (2 =? 2) with true. cbv iota.
    apply bind_in_l. exact Hin.
Qed.

Lemma credential_key_in_requests_witness :
  read_key ("ABC123" +:+ newline) = "ABC123" /\
  exists res,
    In (EvPost "https://generativelanguage.googleapis.com/v1beta/models/gemini-2.5-flash-lite:generateContent?key=ABC123"
          (request_body (SinglePass.generationPrompt 2)) res)
       (events (SinglePass.main two_alive keyed_boot)).
Proof.
  pose proof (credential_key_in_requests two_alive SinglePass.texts 0 []
                keyed_boot "ABC123" "" eq_refl eq_refl eq_refl) as H.
  exact (conj (proj1 H) (proj1 (proj2 (proj2 (proj2 H))) eq_refl)).
Defined.
